(** * Mind-map layout: the tree layout of [src/components/mind-map.tsx]

    The component turns a labelled tree ([MindMapData]) and a set of
    collapsed node ids into the flat node and edge lists handed to the
    diagram renderer.  This file embeds the collapse-capable
    [generateMindMapNodesAndEdges] and the [onToggle] state update, and
    proves the layout properties of the specification about them.

    Modelling choices.
    - A JavaScript number is an exact rational ([Qc], canonical fractions,
      so that equal numbers are equal terms).  Every number the layout
      computes is a sum of row heights or a midpoint of two such numbers, a
      dyadic rational that a double represents exactly for any tree a
      browser can hold.
    - [Set<string>] is [gset string]; the layout only calls [has] on it.
    - The shared [nodes] and [edges] arrays, which the recursion appends to
      and searches, are threaded through the calls as explicit state.
    - The callback [onToggle] is copied unchanged into the data of every
      node and plays no part in the layout; it is left out of the node
      record.
    - The source file also holds an older copy of the layout function
      without collapse support; the collapse-capable one is embedded. *)

From Stdlib Require Import QArith Qcanon DecimalString DecimalNat Ascii String.
From stdpp Require Import gmap strings list.

Local Open Scope Qc_scope.

(** ** Data model *)

(** [type MindMapData = { text: string; children?: MindMapData[] }] *)
#[warnings="-register-all"]
Inductive MindMapData : Type :=
  | MkMindMapData (text : string) (children : option (list MindMapData)).

Definition text (d : MindMapData) : string :=
  match d with MkMindMapData t _ => t end.

Definition children (d : MindMapData) : option (list MindMapData) :=
  match d with MkMindMapData _ c => c end.

(** [!!data.children && data.children.length > 0] *)
Definition hasChildrenOf (d : MindMapData) : bool :=
  match children d with
  | Some (_ :: _) => true
  | _ => false
  end.

(** The node objects pushed on [nodes]. *)
Module Node.
Record position_t : Type := { x : Qc; y : Qc }.
Record data_t : Type :=
  { label : string; hasChildren : bool; isCollapsed : bool }.
Record t : Type :=
  { id : string;
    type : string;
    position : position_t;
    data : data_t;
    className : string;
    sourcePosition : string;
    targetPosition : string }.
End Node.

(** The edge objects pushed on [edges]. *)
Module Edge.
Record t : Type :=
  { id : string;
    source : string;
    target : string;
    className : string;
    sourcePosition : string;
    targetPosition : string }.
End Edge.

(** The object [{ nodes, edges, height }] every call returns. *)
Module Result.
Record t : Type :=
  { nodes : list Node.t; edges : list Edge.t; height : Qc }.
End Result.

(** ** JavaScript helpers *)

(** Template-literal printing of a non-negative integer: decimal digits,
    no sign, no leading zero. *)
Definition showNat (n : nat) : string :=
  NilEmpty.string_of_uint (Nat.to_uint n).

(** A number of the source that is a count: [level], used in
    [level * levelWidth]. *)
Definition ofNat (n : nat) : Qc := Qc_of_Z (Z.of_nat n).

(** [v || d] for [v] a number or [undefined]: [undefined] and [0] are
    falsy. *)
Definition orElse (v : option Qc) (d : Qc) : Qc :=
  match v with
  | Some q => if decide (q = 0) then d else q
  | None => d
  end.

(** [nodes.find((n) => n.id === target)?.position.y] *)
Definition findY (nodes : list Node.t) (target : string) : option Qc :=
  match List.find (fun n => String.eqb (Node.id n) target) nodes with
  | Some n => Some (Node.y (Node.position n))
  | None => None
  end.

(** Truthiness of [parentId : string | null]: [null] and the empty string
    are falsy. *)
Definition truthy (parentId : option string) : option string :=
  match parentId with
  | Some p => if String.eqb p EmptyString then None else Some p
  | None => None
  end.

(** [Array.prototype.forEach] with a callback that updates the enclosing
    state: the callback receives the element and its index. *)
Definition forEachFrom {A St : Type} (callback : A -> nat -> St -> St) :
    list A -> nat -> St -> St :=
  fix go (l : list A) (i : nat) (st : St) {struct l} : St :=
    match l with
    | [] => st
    | a :: rest => go rest (S i) (callback a i st)
    end.

Definition forEach {A St : Type} (callback : A -> nat -> St -> St)
    (l : list A) (st : St) : St :=
  forEachFrom callback l 0%nat st.

(** ** The layout function *)

Section Spacing.

(** [const nodeHeight = 120] and [const levelWidth = 300] in the source.
    They are section variables so that what holds for any spacing is
    proved once; the program is the instance at the source's values. *)
Variables nodeHeight levelWidth : Qc.

(** [const nodeId = parentId ? `${parentId}-${index}` : "n0"] *)
Definition nodeIdOf (parentId : option string) (index : nat) : string :=
  match truthy parentId with
  | Some p => p +:+ "-" +:+ showNat index
  | None => "n0"
  end.

(** The object literal of [nodes.push({...})], the same in both
    branches up to [position.y]. *)
Definition mkNode (nodeId : string) (level : nat) (posY : Qc)
    (data : MindMapData) (hasChildren isCollapsed : bool) : Node.t :=
  {| Node.id := nodeId;
     Node.type := "custom";
     Node.position := {| Node.x := ofNat level * levelWidth; Node.y := posY |};
     Node.data := {| Node.label := text data;
                     Node.hasChildren := hasChildren;
                     Node.isCollapsed := isCollapsed |};
     Node.className := "custom-node level-" +:+ showNat level;
     Node.sourcePosition := "right";
     Node.targetPosition := "left" |}.

(** [if (parentId) { edges.push({...}) }] *)
Definition pushEdge (parentId : option string) (nodeId : string)
    (edges : list Edge.t) : list Edge.t :=
  match truthy parentId with
  | Some p =>
      edges ++ [ {| Edge.id := "e" +:+ p +:+ "-" +:+ nodeId;
                    Edge.source := p;
                    Edge.target := nodeId;
                    Edge.className := "custom-edge";
                    Edge.sourcePosition := "right";
                    Edge.targetPosition := "left" |} ]
  | None => edges
  end.

(** State of the [forEach] over the children: the two shared arrays,
    [childHeights] and [currentY]. *)
Record Loop : Type :=
  { l_nodes : list Node.t;
    l_edges : list Edge.t;
    childHeights : list Qc;
    currentY : Qc }.

Fixpoint generateWith (data : MindMapData) (collapsedNodes : gset string)
    (parentId : option string) (nodes : list Node.t) (edges : list Edge.t)
    (level index : nat) (yOffset : Qc) {struct data} : Result.t :=
  let nodeId := nodeIdOf parentId index in
  let isCollapsed := bool_decide (nodeId ∈ collapsedNodes) in
  let hasChildren := hasChildrenOf data in
  (* BASE CASE: leaf node (no children) or collapsed node *)
  let base :=
    {| Result.nodes :=
         nodes ++ [mkNode nodeId level yOffset data hasChildren isCollapsed];
       Result.edges := pushEdge parentId nodeId edges;
       Result.height := nodeHeight |} in
  match data with
  | MkMindMapData _ (Some ((_ :: _) as kids)) =>
      if negb isCollapsed then
        (* STEP 1: the children, in order, each from the cursor the
           previous one left *)
        let st :=
          forEach
            (fun child childIndex (st : Loop) =>
               let childResult :=
                 generateWith child collapsedNodes (Some nodeId)
                   (l_nodes st) (l_edges st) (S level) childIndex
                   (currentY st) in
               {| l_nodes := Result.nodes childResult;
                  l_edges := Result.edges childResult;
                  childHeights :=
                    childHeights st ++ [Result.height childResult];
                  currentY := currentY st + Result.height childResult |})
            kids
            {| l_nodes := nodes; l_edges := edges;
               childHeights := []; currentY := yOffset |} in
        (* STEP 2: centre between the first and the last child *)
        let totalHeight := fold_left Qcplus (childHeights st) 0 in
        let firstChildY :=
          orElse (findY (l_nodes st) (nodeId +:+ "-" +:+ showNat 0)) yOffset in
        let lastChildIndex := (length kids - 1)%nat in
        let lastChildY :=
          orElse (findY (l_nodes st) (nodeId +:+ "-" +:+ showNat lastChildIndex))
            yOffset in
        let centerY := (firstChildY + lastChildY) / Q2Qc 2 in
        (* STEP 3 and 4: the parent node and its edge *)
        {| Result.nodes :=
             l_nodes st
               ++ [mkNode nodeId level centerY data hasChildren isCollapsed];
           Result.edges := pushEdge parentId nodeId (l_edges st);
           Result.height := totalHeight |}
      else base
  | _ => base
  end.

End Spacing.

(** The program: the layout at the source's spacing constants. *)
Definition nodeHeight : Qc := Q2Qc 120.
Definition levelWidth : Qc := Q2Qc 300.

Definition generateMindMapNodesAndEdges (data : MindMapData)
    (collapsedNodes : gset string) (parentId : option string)
    (nodes : list Node.t) (edges : list Edge.t) (level index : nat)
    (yOffset : Qc) : Result.t :=
  generateWith nodeHeight levelWidth data collapsedNodes parentId nodes edges
    level index yOffset.

(** The call of the component,
    [generateMindMapNodesAndEdges(data, collapsedNodes, onToggle)], with
    the defaults of the remaining parameters. *)
Definition layout (data : MindMapData) (collapsedNodes : gset string) : Result.t :=
  generateMindMapNodesAndEdges data collapsedNodes None [] [] 0 0 0.

(** The updater [onToggle] hands to [setCollapsedNodes]: a copy of the
    previous set with the membership of [id] flipped. *)
Definition onToggle (id : string) (prev : gset string) : gset string :=
  let next := prev in
  if bool_decide (id ∈ next) then next ∖ {[id]} else next ∪ {[id]}.

(** Whether the character [c] occurs in [s]. *)
Fixpoint occurs (c : ascii) (s : string) : bool :=
  match s with
  | EmptyString => false
  | String a s' => Ascii.eqb a c || occurs c s'
  end.

Definition dash : ascii := "-"%char.

(** The tree of the specification's scenario: [A] with children [B] (a
    leaf) and [C], whose children are the leaves [D] and [E]. *)
Definition leafOf (t : string) : MindMapData := MkMindMapData t None.

Definition treeA : MindMapData :=
  MkMindMapData "A"
    (Some [leafOf "B"; MkMindMapData "C" (Some [leafOf "D"; leafOf "E"])]).

(** The node [n] with [isCollapsed] set, when its id is [lid]. *)
Definition markCollapsed (lid : string) (n : Node.t) : Node.t :=
  if String.eqb (Node.id n) lid then
    {| Node.id := Node.id n;
       Node.type := Node.type n;
       Node.position := Node.position n;
       Node.data := {| Node.label := Node.label (Node.data n);
                       Node.hasChildren := Node.hasChildren (Node.data n);
                       Node.isCollapsed := true |};
       Node.className := Node.className n;
       Node.sourcePosition := Node.sourcePosition n;
       Node.targetPosition := Node.targetPosition n |}
  else n.

(** What the scenarios of the specification read off a node and an edge. *)
Definition nodeSummary (n : Node.t) : string * string * (bool * bool) * (Qc * Qc) :=
  (Node.id n, Node.label (Node.data n),
   (Node.hasChildren (Node.data n), Node.isCollapsed (Node.data n)),
   (Node.x (Node.position n), Node.y (Node.position n))).

Definition edgeSummary (e : Edge.t) : string * string * string :=
  (Edge.id e, Edge.source e, Edge.target e).

(** ** Tree positions and visibility

    A position names a node of the tree by the sibling ordinals met on the
    way from the node up to the root: the head is the node's own ordinal
    among its siblings, the tail is the position of its parent, and the root
    is [[]]. *)

(** The id scheme of the specification: the root has a fixed id, the child
    of ordinal [i] of the node with id [P] has id [P-i]. *)
Fixpoint pathId (p : list nat) : string :=
  match p with
  | [] => "n0"
  | i :: q => pathId q +:+ "-" +:+ showNat i
  end.

(** What a call at position [p] receives as [parentId] and [index]. *)
Definition parentOf (p : list nat) : option string :=
  match p with
  | [] => None
  | _ :: q => Some (pathId q)
  end.

Definition indexOf (p : list nat) : nat :=
  match p with
  | [] => 0%nat
  | i :: _ => i
  end.

(** Map over a list with the index of each element, counting from [i]. *)
Definition kidsFrom {A B : Type} (f : A -> nat -> B) : list A -> nat -> list B :=
  fix go (l : list A) (i : nat) {struct l} : list B :=
    match l with
    | [] => []
    | a :: rest => f a i :: go rest (S i)
    end.

(** Every position of the subtree [d] rooted at position [p], children
    before their parent. *)
Fixpoint positions (p : list nat) (d : MindMapData) {struct d} : list (list nat) :=
  match d with
  | MkMindMapData _ (Some kids) =>
      concat (kidsFrom (fun k i => positions (i :: p) k) kids 0%nat) ++ [p]
  | MkMindMapData _ None => [p]
  end.

(** The child of ordinal [i], and the subtree at a position. *)
Definition childAt (d : MindMapData) (i : nat) : option MindMapData :=
  match children d with
  | Some kids => kids !! i
  | None => None
  end.

Fixpoint subtreeAt (d : MindMapData) (p : list nat) : option MindMapData :=
  match p with
  | [] => Some d
  | i :: q =>
      match subtreeAt d q with
      | Some t => childAt t i
      | None => None
      end
  end.

(** [a] is a proper ancestor of [p]. *)
Definition properAncestor (a p : list nat) : Prop :=
  exists b, b <> [] /\ p = b ++ a.

(** The tree [d] has a node with children at position [a]. *)
Definition hasChildrenAt (d : MindMapData) (a : list nat) : Prop :=
  exists sub, subtreeAt d a = Some sub /\ hasChildrenOf sub = true.

(** A node is visible when no proper ancestor of it both has children and
    is in the collapse set; the root has no proper ancestor. *)
Definition visible (d : MindMapData) (C : gset string) (p : list nat) : Prop :=
  forall a, properAncestor a p -> ~ (hasChildrenAt d a /\ pathId a ∈ C).

(** The same, decided on a position of the tree, whose proper ancestors
    always have children. *)
Fixpoint visibleb (C : gset string) (p : list nat) : bool :=
  match p with
  | [] => true
  | _ :: q => negb (bool_decide (pathId q ∈ C)) && visibleb C q
  end.

(** The number [k] of visible nodes of a tree. *)
Definition visibleCount (C : gset string) (d : MindMapData) : nat :=
  length (List.filter (visibleb C) (positions [] d)).

(** The same tree with every label rewritten by [f]. *)
Fixpoint relabel (f : string -> string) (d : MindMapData) {struct d} : MindMapData :=
  match d with
  | MkMindMapData t ch => MkMindMapData (f t) (option_map (map (relabel f)) ch)
  end.

(** A node drawn as a single row: a leaf, or a node whose children are
    collapsed away. *)
Definition leafShaped (n : Node.t) : bool :=
  negb (Node.hasChildren (Node.data n) && negb (Node.isCollapsed (Node.data n))).

(** The accumulated [nodes] array holds no row of a strict descendant of
    the position [p]: what a call at [p] needs of the array it is handed
    for its searches by id to find the rows of its own children. *)
Definition FreshFor (p : list nat) (acc : list Node.t) : Prop :=
  forall n q, n ∈ acc -> Node.id n = pathId (q ++ p) -> q = [].

(** ** The layout as a function of the position

    What a call at position [p] with cursor [yOffset] appends and returns,
    computed without the shared arrays: each child hands its own row up to
    its parent.  The falsy fallback of the source is kept. *)

Record Row : Type := { r_path : list nat; r_data : MindMapData; r_y : Qc }.

Record Plan : Type := { rows : list Row; ownY : Qc; planHeight : Qc }.

Definition plansFrom (f : MindMapData -> nat -> Qc -> Plan) :
    list MindMapData -> nat -> Qc -> list Plan :=
  fix go (l : list MindMapData) (i : nat) (cy : Qc) {struct l} : list Plan :=
    match l with
    | [] => []
    | k :: rest => let pl := f k i cy in pl :: go rest (S i) (cy + planHeight pl)
    end.

Section Plan.

Variables nodeHeight levelWidth : Qc.
Variable C : gset string.

Fixpoint plan (p : list nat) (yOffset : Qc) (d : MindMapData) {struct d} : Plan :=
  let base :=
    {| rows := [ {| r_path := p; r_data := d; r_y := yOffset |} ];
       ownY := yOffset;
       planHeight := nodeHeight |} in
  match d with
  | MkMindMapData _ (Some ((_ :: _) as kids)) =>
      if bool_decide (pathId p ∈ C) then base
      else
        let sub := plansFrom (fun k i cy => plan (i :: p) cy k) kids 0%nat yOffset in
        let centerY :=
          (orElse (ownY <$> head sub) yOffset
           + orElse (ownY <$> last sub) yOffset) / Q2Qc 2 in
        {| rows := concat (map rows sub)
                     ++ [ {| r_path := p; r_data := d; r_y := centerY |} ];
           ownY := centerY;
           planHeight := fold_left Qcplus (map planHeight sub) 0 |}
  | _ => base
  end.

Definition nodeOfRow (r : Row) : Node.t :=
  mkNode levelWidth (pathId (r_path r)) (length (r_path r)) (r_y r) (r_data r)
    (hasChildrenOf (r_data r)) (bool_decide (pathId (r_path r) ∈ C)).

Definition rowEdge (r : Row) : list Edge.t :=
  pushEdge (parentOf (r_path r)) (pathId (r_path r)) [].

(** The row of a leaf or of a collapsed node. *)
Definition isLeafRow (r : Row) : bool :=
  negb (hasChildrenOf (r_data r) && negb (bool_decide (pathId (r_path r) ∈ C))).

(** The callback of the [forEach] in a call whose node id is [nodeId]. *)
Definition childCallback (nodeId : string) (level : nat)
    (child : MindMapData) (childIndex : nat) (st : Loop) : Loop :=
  let childResult :=
    generateWith nodeHeight levelWidth child C (Some nodeId) (l_nodes st)
      (l_edges st) (S level) childIndex (currentY st) in
  {| l_nodes := Result.nodes childResult;
     l_edges := Result.edges childResult;
     childHeights := childHeights st ++ [Result.height childResult];
     currentY := currentY st + Result.height childResult |}.

(** What a call at position [p] appends to the shared arrays and
    returns. *)
Definition CallSpec (d : MindMapData) : Prop :=
  forall p yo accN accE,
    FreshFor p accN ->
    generateWith nodeHeight levelWidth d C (parentOf p) accN accE (length p)
      (indexOf p) yo
    = {| Result.nodes := accN ++ map nodeOfRow (rows (plan p yo d));
         Result.edges := accE ++ flat_map rowEdge (rows (plan p yo d));
         Result.height := planHeight (plan p yo d) |}.

(** The rows [rs] sit one slot after the other from [yo], in order. *)
Definition Slots (yo : Qc) (rs : list Row) : Prop :=
  map r_y rs = map (fun j => yo + ofNat j * nodeHeight) (seq 0 (length rs)).

End Plan.

(** The rows of a call at [p]: rows of strict descendants of [p], then
    the row of [p] itself. *)
Definition RowsShape (p : list nat) (d : MindMapData) (pl : Plan) : Prop :=
  exists init,
    rows pl = init ++ [ {| r_path := p; r_data := d; r_y := ownY pl |} ]
    /\ Forall (fun r => exists q, q <> [] /\ r_path r = q ++ p) init.

(** The array holds rows of descendants of [p] only below its children
    of ordinal less than [i]. *)
Definition KidsFresh (p : list nat) (i : nat) (acc : list Node.t) : Prop :=
  forall n q j, n ∈ acc -> Node.id n = pathId (q ++ j :: p) -> (j < i)%nat.

(** ** The rest of the component *)

(** [q] lies strictly below [a]: [a] is a proper ancestor of [q]. *)
Fixpoint below (a q : list nat) : bool :=
  match q with
  | [] => false
  | _ :: q' => bool_decide (q' = a) || below a q'
  end.

(** A run of clicks: the updater of [onToggle] applied for each id in
    turn. *)
Definition toggleAll (ids : list string) (C : gset string) : gset string :=
  fold_left (fun C id => onToggle id C) ids C.

(** What [CustomNode] returns, as the children of its outer [div] (inline
    styles left out): the invisible target handle, the label, and, for a
    node with children, the collapse handle with its glyph; a click on that
    handle calls [onToggle(id)]. *)
Inductive Element : Type :=
  | TargetHandle
  | Label (text : string)
  | ToggleHandle (glyph : string) (toggles : string).

Definition CustomNode (data : Node.data_t) (id : string) : list Element :=
  [TargetHandle; Label (Node.label data)]
  ++ (if Node.hasChildren data
      then [ToggleHandle (if Node.isCollapsed data then ">" else "<") id]
      else []).

(** [const nodeTypes = { custom: CustomNode }] *)
Definition nodeTypes (type : string)
    : option (Node.data_t -> string -> list Element) :=
  if String.eqb type "custom" then Some CustomNode else None.

(** What is drawn for a node: where, with which class, and the elements of
    the renderer registered for its type. *)
Definition renderNode (n : Node.t)
    : option (string * Node.position_t * string * list Element) :=
  match nodeTypes (Node.type n) with
  | Some render =>
      Some (Node.id n, Node.position n, Node.className n,
            render (Node.data n) (Node.id n))
  | None => None
  end.

(** [MindMap]: the default of the [data] prop and the layout of the
    current collapse state, which starts empty. *)
Definition defaultData : MindMapData := MkMindMapData "Root" None.

Definition MindMap (data : option MindMapData) (collapsedNodes : gset string)
    : Result.t :=
  layout (default defaultData data) collapsedNodes.


(** The older copy of the component in the same source file, without
    collapse support: nodes carry only a label, and the child's index is
    read off [childHeights.length]. *)
Module Legacy.

Record data_t : Type := { label : string }.

Record node : Type :=
  { id : string;
    position : Node.position_t;
    data : data_t;
    className : string;
    sourcePosition : string;
    targetPosition : string }.

Record result : Type :=
  { nodes : list node; edges : list Edge.t; height : Qc }.

Record Loop : Type :=
  { l_nodes : list node;
    l_edges : list Edge.t;
    childHeights : list Qc;
    currentY : Qc }.

(** [nodes.find((n) => n.id === target)?.position.y] *)
Definition findY (nodes : list node) (target : string) : option Qc :=
  match List.find (fun n => String.eqb (id n) target) nodes with
  | Some n => Some (Node.y (position n))
  | None => None
  end.

Section Spacing.

Variables nodeHeight levelWidth : Qc.

Definition mkNode (nodeId : string) (level : nat) (posY : Qc)
    (data : MindMapData) : node :=
  {| id := nodeId;
     position := {| Node.x := ofNat level * levelWidth; Node.y := posY |};
     data := {| label := text data |};
     className := "custom-node level-" +:+ showNat level;
     sourcePosition := "right";
     targetPosition := "left" |}.

Fixpoint generateWith (data : MindMapData) (parentId : option string)
    (nodes : list node) (edges : list Edge.t) (level index : nat)
    (yOffset : Qc) {struct data} : result :=
  let nodeId := nodeIdOf parentId index in
  (* BASE CASE: leaf node (no children) *)
  let base :=
    {| Legacy.nodes := nodes ++ [mkNode nodeId level yOffset data];
       Legacy.edges := pushEdge parentId nodeId edges;
       Legacy.height := nodeHeight |} in
  match data with
  | MkMindMapData _ (Some ((_ :: _) as kids)) =>
      let st :=
        forEach
          (fun child (_ : nat) (st : Loop) =>
             let childResult :=
               generateWith child (Some nodeId) (l_nodes st) (l_edges st)
                 (S level) (length (childHeights st)) (currentY st) in
             {| l_nodes := Legacy.nodes childResult;
                l_edges := Legacy.edges childResult;
                childHeights := childHeights st ++ [Legacy.height childResult];
                currentY := currentY st + Legacy.height childResult |})
          kids
          {| l_nodes := nodes; l_edges := edges;
             childHeights := []; currentY := yOffset |} in
      let totalHeight := fold_left Qcplus (childHeights st) 0 in
      let firstChildY :=
        orElse (findY (l_nodes st) (nodeId +:+ "-" +:+ showNat 0)) yOffset in
      let lastChildIndex := (length kids - 1)%nat in
      let lastChildY :=
        orElse (findY (l_nodes st) (nodeId +:+ "-" +:+ showNat lastChildIndex))
          yOffset in
      let centerY := (firstChildY + lastChildY) / Q2Qc 2 in
      {| Legacy.nodes := l_nodes st ++ [mkNode nodeId level centerY data];
         Legacy.edges := pushEdge parentId nodeId (l_edges st);
         Legacy.height := totalHeight |}
  | _ => base
  end.

End Spacing.

Definition generateMindMapNodesAndEdges (data : MindMapData)
    (parentId : option string) (nodes : list node) (edges : list Edge.t)
    (level index : nat) (yOffset : Qc) : result :=
  generateWith nodeHeight levelWidth data parentId nodes edges level index
    yOffset.

(** [generateMindMapNodesAndEdges(data)] under the default
    [data = { text: "Root" }] of the component. *)
Definition MindMap (data : option MindMapData) : result :=
  generateMindMapNodesAndEdges (default defaultData data) None [] [] 0 0 0.

End Legacy.

(** What the older node shape keeps of a node. *)
Definition eraseNode (n : Node.t) : Legacy.node :=
  {| Legacy.id := Node.id n;
     Legacy.position := Node.position n;
     Legacy.data := {| Legacy.label := Node.label (Node.data n) |};
     Legacy.className := Node.className n;
     Legacy.sourcePosition := Node.sourcePosition n;
     Legacy.targetPosition := Node.targetPosition n |}.

Definition eraseResult (r : Result.t) : Legacy.result :=
  {| Legacy.nodes := map eraseNode (Result.nodes r);
     Legacy.edges := Result.edges r;
     Legacy.height := Result.height r |}.

Definition eraseLoop (st : Loop) : Legacy.Loop :=
  {| Legacy.l_nodes := map eraseNode (l_nodes st);
     Legacy.l_edges := l_edges st;
     Legacy.childHeights := childHeights st;
     Legacy.currentY := currentY st |}.

(** The callback of the [forEach] of the older copy. *)
Definition legacyCallback (nodeHeight levelWidth : Qc) (nodeId : string)
    (level : nat)
    (child : MindMapData) (_ : nat) (st : Legacy.Loop) : Legacy.Loop :=
  let childResult :=
    Legacy.generateWith nodeHeight levelWidth child (Some nodeId)
      (Legacy.l_nodes st) (Legacy.l_edges st) (S level)
      (length (Legacy.childHeights st)) (Legacy.currentY st) in
  {| Legacy.l_nodes := Legacy.nodes childResult;
     Legacy.l_edges := Legacy.edges childResult;
     Legacy.childHeights :=
       Legacy.childHeights st ++ [Legacy.height childResult];
     Legacy.currentY := Legacy.currentY st + Legacy.height childResult |}.

(** What a call of the older copy does is what the same call of the
    collapse-capable function does with nothing collapsed. *)
Definition LegacySpec (nodeHeight levelWidth : Qc) (d : MindMapData) : Prop :=
  forall parentId accN accE level index yo,
    Legacy.generateWith nodeHeight levelWidth d parentId (map eraseNode accN)
      accE level index yo
    = eraseResult
        (generateWith nodeHeight levelWidth d ∅ parentId accN accE level index yo).

(** The cursor before the plan of index [j]. *)
Definition cursorAt (sub : list Plan) (yo : Qc) (j : nat) : Qc :=
  fold_left Qcplus (map planHeight (take j sub)) yo.

(** ** Strings and ids *)

Lemma occurs_app c s1 s2 : occurs c (s1 +:+ s2) = occurs c s1 || occurs c s2.
Proof.
  induction s1 as [|a s1 IH]; simpl; [done|].
  rewrite IH. by rewrite orb_assoc.
Qed.

Lemma string_of_uint_no_dash d : occurs dash (NilEmpty.string_of_uint d) = false.
Proof. induction d; simpl; auto. Qed.

Lemma showNat_no_dash n : occurs dash (showNat n) = false.
Proof. apply string_of_uint_no_dash. Qed.

Lemma showNat_inj n m : showNat n = showNat m -> n = m.
Proof.
  unfold showNat. intros H.
  apply Unsigned.to_uint_inj.
  pose proof (NilEmpty.usu (Nat.to_uint n)) as H1.
  pose proof (NilEmpty.usu (Nat.to_uint m)) as H2.
  rewrite H in H1. congruence.
Qed.

(** A string is cut in one way only at its last dash. *)
Lemma split_last_dash s1 s2 d1 d2 :
  occurs dash d1 = false -> occurs dash d2 = false ->
  s1 +:+ String dash d1 = s2 +:+ String dash d2 -> s1 = s2 /\ d1 = d2.
Proof.
  intros H1 H2. revert s2.
  induction s1 as [|a s1 IH]; intros [|b s2]; simpl; intros E.
  - by injection E as ->.
  - injection E as <- ->. rewrite occurs_app in H1. simpl in H1.
    by rewrite orb_true_r in H1.
  - injection E as -> <-. rewrite occurs_app in H2. simpl in H2.
    by rewrite orb_true_r in H2.
  - injection E as -> E. destruct (IH _ E) as [-> ->]. done.
Qed.

Lemma child_id_inj P1 P2 i j :
  P1 +:+ "-" +:+ showNat i = P2 +:+ "-" +:+ showNat j -> P1 = P2 /\ i = j.
Proof.
  intros E. change ("-" +:+ showNat i) with (String dash (showNat i)) in E.
  change ("-" +:+ showNat j) with (String dash (showNat j)) in E.
  apply split_last_dash in E; auto using showNat_no_dash.
  destruct E as [-> E]. split; [done|]. by apply showNat_inj.
Qed.

Lemma child_id_not_root P i : P +:+ "-" +:+ showNat i <> "n0".
Proof.
  intros E. apply (f_equal (occurs dash)) in E.
  rewrite occurs_app in E. simpl in E. by rewrite orb_true_r in E.
Qed.

Lemma pathId_inj p q : pathId p = pathId q -> p = q.
Proof.
  revert q. induction p as [|i p IH]; intros [|j q]; simpl; intros E.
  - done.
  - symmetry in E. by apply child_id_not_root in E.
  - by apply child_id_not_root in E.
  - apply child_id_inj in E as [E ->]. by rewrite (IH _ E).
Qed.

Lemma pathId_nonempty p : pathId p <> EmptyString.
Proof. destruct p as [|i p]; simpl; [done|]. by destruct (pathId p). Qed.

Lemma truthy_pathId p : truthy (Some (pathId p)) = Some (pathId p).
Proof.
  unfold truthy. destruct (String.eqb_spec (pathId p) EmptyString); [|done].
  by destruct (pathId_nonempty p).
Qed.

Lemma nodeIdOf_path p : nodeIdOf (parentOf p) (indexOf p) = pathId p.
Proof.
  destruct p as [|i p]; [done|].
  unfold nodeIdOf, parentOf, indexOf. by rewrite truthy_pathId.
Qed.

(** ** Induction on trees *)

Lemma MindMapData_ind' (P : MindMapData -> Prop) :
  (forall t, P (MkMindMapData t None)) ->
  (forall t kids, Forall P kids -> P (MkMindMapData t (Some kids))) ->
  forall d, P d.
Proof.
  intros Hnone Hsome. fix IH 1. intros [t [kids|]]; [|apply Hnone].
  apply Hsome. revert kids. fix IHl 1.
  intros [|k kids]; constructor; [apply IH | apply IHl].
Qed.

(** ** Lists *)

Lemma elem_of_concat {A : Type} (x : A) (ls : list (list A)) :
  x ∈ concat ls <-> exists l, x ∈ l /\ l ∈ ls.
Proof.
  induction ls as [|l ls IH]; simpl.
  - split; [by intros ?%elem_of_nil | by intros (? & _ & ?%elem_of_nil)].
  - rewrite elem_of_app, IH. split.
    + intros [H|(l' & ? & ?)]; [exists l | exists l']; split; auto; by constructor.
    + intros (l' & Hx & [->|Hl]%elem_of_cons); [by left | right; eauto].
Qed.

(** ** The plan of a call *)

Lemma plansFrom_length f l i cy : length (plansFrom f l i cy) = length l.
Proof. revert i cy. induction l as [|k l IH]; intros; simpl; [done|]. by rewrite IH. Qed.

Lemma plansFrom_lookup f l i cy j pl :
  plansFrom f l i cy !! j = Some pl ->
  exists k cy', l !! j = Some k /\ pl = f k (i + j)%nat cy'.
Proof.
  revert i cy j. induction l as [|k l IH]; intros i cy [|j]; simpl; try done.
  - intros [= <-]. exists k, cy. by rewrite Nat.add_0_r.
  - intros H. apply IH in H as (k' & cy' & ? & ->).
    exists k', cy'. split; [done|]. f_equal. lia.
Qed.

Lemma plansFrom_elem f l i cy pl :
  pl ∈ plansFrom f l i cy ->
  exists j k cy', l !! j = Some k /\ pl = f k (i + j)%nat cy'.
Proof.
  intros (j & Hj)%list_elem_of_lookup.
  apply plansFrom_lookup in Hj as (k & cy' & ? & ?). eauto.
Qed.

Section PlanFacts.

Variables nodeHeight levelWidth : Qc.
Variable C : gset string.

Abbreviation plan := (plan nodeHeight C).
Abbreviation kidPlans p := (plansFrom (fun k i cy => plan (i :: p) cy k)).

Lemma plan_collapsed p yo d :
  pathId p ∈ C ->
  plan p yo d
  = {| rows := [ {| r_path := p; r_data := d; r_y := yo |} ];
       ownY := yo; planHeight := nodeHeight |}.
Proof.
  intros H. destruct d as [t [[|k ks]|]]; try done.
  simpl. by rewrite bool_decide_eq_true_2.
Qed.

Lemma plan_expanded p yo t k ks :
  pathId p ∉ C ->
  let d := MkMindMapData t (Some (k :: ks)) in
  let sub := kidPlans p (k :: ks) 0%nat yo in
  let centerY :=
    (orElse (ownY <$> head sub) yo + orElse (ownY <$> last sub) yo) / Q2Qc 2 in
  plan p yo d
  = {| rows := concat (map rows sub)
                 ++ [ {| r_path := p; r_data := d; r_y := centerY |} ];
       ownY := centerY;
       planHeight := fold_left Qcplus (map planHeight sub) 0 |}.
Proof. intros H. simpl. by rewrite bool_decide_eq_false_2. Qed.

(** The three shapes a call can take. *)
Lemma plan_cases p yo d :
  (plan p yo d
   = {| rows := [ {| r_path := p; r_data := d; r_y := yo |} ];
        ownY := yo; planHeight := nodeHeight |}
   /\ (hasChildrenOf d = false \/ pathId p ∈ C))
  \/ (exists t k ks, d = MkMindMapData t (Some (k :: ks)) /\ pathId p ∉ C).
Proof.
  destruct (decide (pathId p ∈ C)) as [Hc|Hc].
  { left. split; [by apply plan_collapsed | by right]. }
  destruct d as [t [[|k ks]|]].
  - left. split; [done | by left].
  - right. eauto.
  - left. split; [done | by left].
Qed.

Lemma kid_rows_suffix p kids i yo pl r :
  Forall (fun k => forall p yo, RowsShape p k (plan p yo k)) kids ->
  pl ∈ kidPlans p kids i yo -> r ∈ rows pl ->
  exists q j, r_path r = q ++ j :: p /\ (i <= j < i + length kids)%nat.
Proof.
  intros IH Hpl Hr.
  apply plansFrom_elem in Hpl as (j & k & cy & Hk & ->).
  rewrite Forall_lookup in IH. destruct (IH _ _ Hk (i + j :: p)%nat cy) as (init & E & Hinit).
  apply lookup_lt_Some in Hk.
  rewrite E in Hr. apply elem_of_app in Hr as [Hr|Hr].
  - rewrite Forall_forall in Hinit. destruct (Hinit _ Hr) as (q & _ & ->).
    exists q, (i + j)%nat. split; [done|lia].
  - apply list_elem_of_singleton in Hr as ->. exists [], (i + j)%nat. split; [done|lia].
Qed.

Lemma plan_shape d : forall p yo, RowsShape p d (plan p yo d).
Proof.
  induction d as [t|t kids IH] using MindMapData_ind'; intros p yo.
  - exists []. by split.
  - destruct (plan_cases p yo (MkMindMapData t (Some kids)))
      as [[E _]|(t' & k & ks & [= <- ->] & Hc)].
    { rewrite E. exists []. by split. }
    rewrite plan_expanded by done. cbv zeta. eexists. split; [done|].
    apply Forall_forall. intros r (rs & Hr & (pl & -> & Hpl)%list_elem_of_fmap)%elem_of_concat.
    destruct (kid_rows_suffix _ _ _ _ _ _ IH Hpl Hr) as (q & j & -> & _).
    exists (q ++ [j]). split; [by destruct q | by rewrite <- app_assoc].
Qed.

Lemma rows_suffix p yo d r :
  r ∈ rows (plan p yo d) -> exists q, r_path r = q ++ p.
Proof.
  destruct (plan_shape d p yo) as (init & -> & Hinit).
  intros [Hr|Hr]%elem_of_app.
  - rewrite Forall_forall in Hinit. destruct (Hinit _ Hr) as (q & _ & ?). eauto.
  - apply list_elem_of_singleton in Hr as ->. by exists [].
Qed.

Lemma kid_plan_rows p kids i yo j pl r :
  kidPlans p kids i yo !! j = Some pl -> r ∈ rows pl ->
  exists q, r_path r = q ++ (i + j)%nat :: p.
Proof.
  intros (k & cy & _ & ->)%plansFrom_lookup Hr.
  by apply rows_suffix in Hr.
Qed.

Lemma path_cons_inv (q1 q2 p : list nat) j1 j2 :
  q1 ++ j1 :: p = q2 ++ j2 :: p -> q1 = q2 /\ j1 = j2.
Proof.
  intros E. rewrite !(cons_middle _ _ p), !app_assoc in E.
  apply app_inv_tail in E. by apply app_inj_tail in E.
Qed.

Lemma path_self_inv (q p : list nat) : q ++ p = p -> q = [].
Proof. intros E. by apply (app_inv_tail p q []). Qed.

(** ** The shared arrays against the plan *)

Abbreviation rowNode := (nodeOfRow levelWidth C).

Lemma findY_skip (l1 l2 : list Node.t) n target :
  (forall m, m ∈ l1 -> Node.id m <> target) -> Node.id n = target ->
  findY (l1 ++ n :: l2) target = Some (Node.y (Node.position n)).
Proof.
  intros Hl1 Hn. unfold findY. induction l1 as [|m l1 IH]; simpl.
  - rewrite Hn, String.eqb_refl. done.
  - destruct (String.eqb_spec (Node.id m) target) as [E|_].
    + destruct (Hl1 m); [by left | done].
    + apply IH. intros m' Hm'. apply Hl1. by right.
Qed.

(** The search by id for the row of the child of ordinal [j] finds the
    row that child's call pushed. *)
Lemma findY_kid p kids yo acc j pl :
  FreshFor p acc ->
  kidPlans p kids 0%nat yo !! j = Some pl ->
  findY (acc ++ map rowNode (concat (map rows (kidPlans p kids 0%nat yo))))
    (pathId (j :: p)) = Some (ownY pl).
Proof.
  intros Hacc Hj. set (sub := kidPlans p kids 0%nat yo) in *.
  pose proof (plansFrom_lookup _ _ _ _ _ _ Hj) as (k & cy & Hk & Epl).
  simpl in Epl.
  destruct (plan_shape k (j :: p) cy) as (init & Erows & Hinit).
  rewrite <- Epl in Erows.
  rewrite <- (take_drop_middle sub j pl Hj).
  rewrite map_app, concat_app. simpl. rewrite Erows.
  rewrite !map_app. simpl. rewrite <- !app_assoc. simpl.
  rewrite !app_assoc.
  rewrite (findY_skip _ _ _ (pathId (j :: p))); [done| |done].
  intros m [[Hm|Hm]%elem_of_app|Hm]%elem_of_app E.
  - by specialize (Hacc m [j] Hm E).
  - apply list_elem_of_fmap in Hm as (r & -> & Hr).
    apply elem_of_concat in Hr as (rs & Hr & (pl' & -> & Hpl')%list_elem_of_fmap).
    apply list_elem_of_lookup in Hpl' as (j' & Hj').
    pose proof (lookup_lt_Some _ _ _ Hj') as Hlt.
    rewrite length_take in Hlt.
    rewrite lookup_take_lt in Hj' by lia.
    destruct (kid_plan_rows _ _ _ _ _ _ _ Hj' Hr) as (q & Eq).
    change (pathId (r_path r) = pathId (j :: p)) in E.
    simpl in Eq. apply pathId_inj in E. rewrite Eq in E.
    apply (path_cons_inv q [] p j' j) in E as [_ ->]. lia.
  - apply list_elem_of_fmap in Hm as (r & -> & Hr).
    rewrite Forall_forall in Hinit. destruct (Hinit _ Hr) as (q & Hq & Eq).
    change (pathId (r_path r) = pathId (j :: p)) in E.
    apply pathId_inj in E. rewrite Eq in E.
    by apply path_self_inv in E.
Qed.

Abbreviation generate := (generateWith nodeHeight levelWidth).
Abbreviation childCallback := (childCallback nodeHeight levelWidth C).
Abbreviation CallSpec := (CallSpec nodeHeight levelWidth C).

Lemma generate_base d parentId nodes edges level index yo :
  hasChildrenOf d = false \/ nodeIdOf parentId index ∈ C ->
  generate d C parentId nodes edges level index yo
  = {| Result.nodes :=
         nodes ++ [mkNode levelWidth (nodeIdOf parentId index) level yo d
                     (hasChildrenOf d)
                     (bool_decide (nodeIdOf parentId index ∈ C))];
       Result.edges := pushEdge parentId (nodeIdOf parentId index) edges;
       Result.height := nodeHeight |}.
Proof.
  intros H. destruct d as [t [[|k ks]|]]; try done.
  destruct H as [H|H]; [done|].
  simpl. by rewrite bool_decide_eq_true_2.
Qed.

Lemma generate_expanded t k ks parentId nodes edges level index yo :
  nodeIdOf parentId index ∉ C ->
  let d := MkMindMapData t (Some (k :: ks)) in
  let nodeId := nodeIdOf parentId index in
  let st :=
    forEach (childCallback nodeId level) (k :: ks)
      {| l_nodes := nodes; l_edges := edges;
         childHeights := []; currentY := yo |} in
  let centerY :=
    (orElse (findY (l_nodes st) (nodeId +:+ "-" +:+ showNat 0)) yo
     + orElse (findY (l_nodes st)
                 (nodeId +:+ "-" +:+ showNat (length (k :: ks) - 1))) yo)
    / Q2Qc 2 in
  generate d C parentId nodes edges level index yo
  = {| Result.nodes := l_nodes st ++ [mkNode levelWidth nodeId level centerY d true false];
       Result.edges := pushEdge parentId nodeId (l_edges st);
       Result.height := fold_left Qcplus (childHeights st) 0 |}.
Proof. intros H. simpl. by rewrite bool_decide_eq_false_2. Qed.

Lemma forEach_plan p kids :
  Forall CallSpec kids ->
  forall i st,
    KidsFresh p i (l_nodes st) ->
    forEachFrom (childCallback (pathId p) (length p)) kids i st
    = let sub := kidPlans p kids i (currentY st) in
      {| l_nodes := l_nodes st ++ map rowNode (concat (map rows sub));
         l_edges := l_edges st ++ flat_map rowEdge (concat (map rows sub));
         childHeights := childHeights st ++ map planHeight sub;
         currentY := fold_left Qcplus (map planHeight sub) (currentY st) |}.
Proof.
  induction 1 as [|k kids Hk _ IH]; intros i st Hfresh.
  - simpl. rewrite !app_nil_r. by destruct st.
  - assert (Hcall :
      generate k C (Some (pathId p)) (l_nodes st) (l_edges st)
        (S (length p)) i (currentY st)
      = {| Result.nodes :=
             l_nodes st ++ map rowNode (rows (plan (i :: p) (currentY st) k));
           Result.edges :=
             l_edges st ++ flat_map rowEdge (rows (plan (i :: p) (currentY st) k));
           Result.height := planHeight (plan (i :: p) (currentY st) k) |}).
    { apply (Hk (i :: p)). intros n q Hn E.
      apply (Hfresh n q i) in Hn; [lia | done]. }
    simpl forEachFrom. rewrite IH; unfold childCallback; cbv zeta; rewrite Hcall.
    + simpl. by rewrite !map_app, !flat_map_app, <- !app_assoc.
    + intros n q j [Hn|Hn]%elem_of_app E.
      * specialize (Hfresh n q j Hn E). lia.
      * apply list_elem_of_fmap in Hn as (r & -> & Hr).
        apply rows_suffix in Hr as (q' & Eq).
        change (pathId (r_path r) = pathId (q ++ j :: p)) in E.
        apply pathId_inj in E. rewrite Eq in E.
        apply path_cons_inv in E as [_ <-]. lia.
Qed.

Lemma kidPlans_nonempty p k ks yo :
  exists pl0 pll,
    head (kidPlans p (k :: ks) 0%nat yo) = Some pl0
    /\ last (kidPlans p (k :: ks) 0%nat yo) = Some pll
    /\ kidPlans p (k :: ks) 0%nat yo !! 0%nat = Some pl0
    /\ kidPlans p (k :: ks) 0%nat yo !! (length (k :: ks) - 1)%nat = Some pll.
Proof.
  set (sub := kidPlans p (k :: ks) 0%nat yo).
  assert (Hlen : length sub = length (k :: ks)) by apply plansFrom_length.
  destruct (lookup_lt_is_Some_2 sub 0%nat) as [pl0 H0]; [simpl in *; lia|].
  destruct (lookup_lt_is_Some_2 sub (length (k :: ks) - 1)%nat) as [pll Hl];
    [simpl in *; lia|].
  exists pl0, pll. split; [|split; [|split]].
  - by rewrite head_lookup.
  - rewrite last_lookup, Hlen.
    by replace (Init.Nat.pred (length (k :: ks))) with (length (k :: ks) - 1)%nat
      by (simpl; lia).
  - done.
  - done.
Qed.

Lemma pushEdge_app parentId nodeId (acc : list Edge.t) :
  pushEdge parentId nodeId acc = acc ++ pushEdge parentId nodeId [].
Proof. unfold pushEdge. destruct (truthy parentId); [done | by rewrite app_nil_r]. Qed.

Lemma flat_map_rowEdge_snoc rs r :
  flat_map rowEdge (rs ++ [r])
  = pushEdge (parentOf (r_path r)) (pathId (r_path r)) (flat_map rowEdge rs).
Proof.
  rewrite flat_map_app. simpl. rewrite app_nil_r.
  by rewrite (pushEdge_app _ _ (flat_map _ _)).
Qed.

(** The source function, run on the shared arrays, computes the plan. *)
Lemma generate_plan d : CallSpec d.
Proof.
  induction d as [t|t kids IH] using MindMapData_ind'; intros p yo accN accE Hfresh.
  - rewrite generate_base by (by left). rewrite nodeIdOf_path.
    rewrite (pushEdge_app _ _ accE). simpl. by rewrite app_nil_r.
  - destruct (decide (pathId p ∈ C)) as [Hc|Hc].
    { rewrite generate_base by (right; by rewrite nodeIdOf_path).
      rewrite nodeIdOf_path, plan_collapsed by done.
      rewrite (pushEdge_app _ _ accE). simpl. by rewrite app_nil_r. }
    destruct kids as [|k ks].
    { rewrite generate_base by (by left). rewrite nodeIdOf_path.
      rewrite (pushEdge_app _ _ accE). simpl. by rewrite app_nil_r. }
    rewrite generate_expanded by (by rewrite nodeIdOf_path).
    rewrite plan_expanded by done. cbv zeta.
    rewrite nodeIdOf_path. unfold forEach.
    rewrite (forEach_plan p (k :: ks) IH).
    2:{ intros n q j Hn E. simpl in Hn.
        rewrite (cons_middle j q p), app_assoc in E.
        apply Hfresh in E; [by destruct q | done]. }
    cbn [l_nodes l_edges childHeights currentY].
    destruct (kidPlans_nonempty p k ks yo) as (pl0 & pll & Eh & El & H0 & Hl).
    change (pathId p +:+ "-" +:+ showNat 0) with (pathId (0%nat :: p)).
    change (pathId p +:+ "-" +:+ showNat (length (k :: ks) - 1))
      with (pathId ((length (k :: ks) - 1)%nat :: p)).
    rewrite (findY_kid p (k :: ks) yo accN _ _ Hfresh H0).
    rewrite (findY_kid p (k :: ks) yo accN _ _ Hfresh Hl).
    rewrite Eh, El. simpl fmap. cbn [rows ownY planHeight].
    rewrite flat_map_rowEdge_snoc, map_app, (pushEdge_app _ _ (accE ++ _)).
    rewrite (pushEdge_app _ _ (flat_map _ _)).
    rewrite <- !app_assoc. unfold nodeOfRow. cbn [r_path r_data r_y map app hasChildrenOf children].
    by rewrite bool_decide_eq_false_2.
Qed.

End PlanFacts.

(** ** Positions *)

Lemma kidsFrom_lookup {A B : Type} (f : A -> nat -> B) l i j y :
  kidsFrom f l i !! j = Some y -> exists a, l !! j = Some a /\ y = f a (i + j)%nat.
Proof.
  revert i j. induction l as [|a l IH]; intros i [|j]; simpl; try done.
  - intros [= <-]. exists a. by rewrite Nat.add_0_r.
  - intros (a' & ? & ->)%IH. exists a'. split; [done|]. f_equal. lia.
Qed.

Lemma positions_suffix d : forall p x, x ∈ positions p d -> exists q, x = q ++ p.
Proof.
  induction d as [t|t kids IH] using MindMapData_ind'; intros p x; simpl.
  - intros ->%list_elem_of_singleton. by exists [].
  - intros [Hx| ->%list_elem_of_singleton]%elem_of_app; [|by exists []].
    apply elem_of_concat in Hx as (l & Hx & (j & Hj)%list_elem_of_lookup).
    apply kidsFrom_lookup in Hj as (k & Hk & ->).
    rewrite Forall_lookup in IH.
    destruct (IH _ _ Hk _ _ Hx) as (q & ->).
    exists (q ++ [(0 + j)%nat]). by rewrite <- app_assoc.
Qed.

Lemma visibleb_below_collapsed C p q :
  pathId p ∈ C -> q <> [] -> visibleb C (q ++ p) = false.
Proof.
  intros Hp. induction q as [|i q IH]; [done|]. intros _. simpl.
  destruct q as [|i' q].
  - simpl. by rewrite bool_decide_eq_true_2.
  - rewrite IH by done. apply andb_false_r.
Qed.

Lemma visibleb_spec C p :
  visibleb C p = true <-> forall a, properAncestor a p -> pathId a ∉ C.
Proof.
  induction p as [|i p IH]; simpl.
  - split; [|done]. intros _ a (b & Hb & E).
    symmetry in E. apply app_eq_nil in E as [-> _]. done.
  - rewrite andb_true_iff, negb_true_iff, bool_decide_eq_false, IH. split.
    + intros [Hp Hvis] a (b & Hb & E).
      destruct b as [|j b]; [done|]. injection E as -> E.
      destruct b as [|j' b]; [by subst|].
      apply Hvis. exists (j' :: b). by split.
    + intros Hvis. split.
      * apply Hvis. by exists [i].
      * intros a (b & Hb & ->). apply Hvis. exists (i :: b). by split.
Qed.

Lemma positions_shape d p :
  exists init,
    positions p d = init ++ [p]
    /\ Forall (fun x => exists q, q <> [] /\ x = q ++ p) init.
Proof.
  destruct d as [t [kids|]]; simpl; [|by exists []].
  eexists. split; [done|]. apply Forall_forall. intros x Hx.
  apply elem_of_concat in Hx as (l & Hx & (j & Hj)%list_elem_of_lookup).
  apply kidsFrom_lookup in Hj as (k & Hk & ->).
  apply positions_suffix in Hx as (q & ->).
  exists (q ++ [(0 + j)%nat]). split; [by destruct q | by rewrite <- app_assoc].
Qed.

Lemma filter_none {A : Type} (f : A -> bool) (l : list A) :
  (forall x, x ∈ l -> f x = false) -> List.filter f l = [].
Proof.
  induction l as [|a l IH]; intros H; simpl; [done|].
  rewrite (H a) by (by left). apply IH. intros x Hx. apply H. by right.
Qed.

Lemma kid_positions_NoDup p kids :
  Forall (fun k => forall p, NoDup (positions p k)) kids ->
  forall i,
    NoDup (concat (kidsFrom (fun k i => positions (i :: p) k) kids i))
    /\ (forall x, x ∈ concat (kidsFrom (fun k i => positions (i :: p) k) kids i) ->
        exists q j, x = q ++ j :: p /\ (i <= j)%nat).
Proof.
  induction 1 as [|k kids Hk _ IH]; intros i; simpl.
  - split; [constructor | by intros x ?%elem_of_nil].
  - destruct (IH (S i)) as [Hnd Hform]. split.
    + apply NoDup_app. split; [apply Hk|]. split; [|done].
      intros x (q1 & ->)%positions_suffix (q2 & j & E & Hj)%Hform.
      rewrite !(cons_middle _ _ p), !app_assoc in E.
      apply app_inv_tail, app_inj_tail in E as [_ ->]. lia.
    + intros x [(q & ->)%positions_suffix | (q & j & -> & Hj)%Hform]%elem_of_app.
      * exists q, i. split; [done | lia].
      * exists q, j. split; [done | lia].
Qed.

Lemma positions_NoDup d : forall p, NoDup (positions p d).
Proof.
  induction d as [t|t kids IH] using MindMapData_ind'; intros p; simpl.
  - apply NoDup_singleton.
  - destruct (kid_positions_NoDup p kids IH 0%nat) as [Hnd Hform].
    apply NoDup_app. split; [done|]. split; [|apply NoDup_singleton].
    intros x (q & j & -> & _)%Hform E%list_elem_of_singleton.
    rewrite (cons_middle j q p), app_assoc in E.
    apply (app_inv_tail p _ []) in E. by destruct q.
Qed.

Section PlanPaths.

Variables nodeHeight levelWidth : Qc.
Variable C : gset string.

Abbreviation plan := (plan nodeHeight C).
Abbreviation kidPlans p := (plansFrom (fun k i cy => plan (i :: p) cy k)).

Lemma kid_rows_paths p kids :
  pathId p ∉ C -> visibleb C p = true ->
  Forall (fun k => forall p yo, visibleb C p = true ->
            map r_path (rows (plan p yo k))
            = List.filter (visibleb C) (positions p k)) kids ->
  forall i cy,
    map r_path (concat (map rows (kidPlans p kids i cy)))
    = List.filter (visibleb C)
        (concat (kidsFrom (fun k i => positions (i :: p) k) kids i)).
Proof.
  intros Hc Hvis. induction 1 as [|k kids Hk _ IH]; intros i cy; simpl; [done|].
  rewrite map_app, List.filter_app, IH, Hk; [done|].
  simpl. by rewrite bool_decide_eq_false_2.
Qed.

(** The rows of a call at a visible position are the visible positions of
    its subtree, children before their parent. *)
Lemma rows_paths d :
  forall p yo, visibleb C p = true ->
    map r_path (rows (plan p yo d)) = List.filter (visibleb C) (positions p d).
Proof.
  induction d as [t|t kids IH] using MindMapData_ind'; intros p yo Hvis.
  - simpl. by rewrite Hvis.
  - destruct (plan_cases nodeHeight C p yo (MkMindMapData t (Some kids)))
      as [[E Hbase]|(t' & k & ks & [= <- ->] & Hc)].
    + rewrite E. simpl. rewrite List.filter_app. simpl. rewrite Hvis.
      destruct Hbase as [Hk|Hc].
      * by destruct kids.
      * rewrite filter_none; [done|]. intros x Hx.
        apply elem_of_concat in Hx as (l & Hx & (j & Hj)%list_elem_of_lookup).
        apply kidsFrom_lookup in Hj as (k & Hk & ->).
        apply positions_suffix in Hx as (q & ->).
        rewrite (cons_middle _ q p), app_assoc.
        apply visibleb_below_collapsed; [done | by destruct q].
    + rewrite plan_expanded by done. cbv zeta. cbn [rows].
      change (positions p (MkMindMapData t (Some (k :: ks))))
        with (concat (kidsFrom (fun k i => positions (i :: p) k) (k :: ks) 0%nat)
                ++ [p]).
      rewrite map_app, List.filter_app, (kid_rows_paths p (k :: ks) Hc Hvis IH).
      simpl. by rewrite Hvis.
Qed.

Lemma rowEdge_length r :
  length (rowEdge r) = match r_path r with [] => 0%nat | _ => 1%nat end.
Proof.
  unfold rowEdge, pushEdge. destruct (r_path r) as [|i q]; [done|].
  cbn [parentOf]. by rewrite truthy_pathId.
Qed.

(** One edge for every row but the root's. *)
Lemma root_edges_length yo d :
  S (length (flat_map rowEdge (rows (plan [] yo d))))
  = length (rows (plan [] yo d)).
Proof.
  destruct (plan_shape nodeHeight C d [] yo) as (init & -> & Hinit).
  rewrite flat_map_app, !length_app. simpl.
  assert (length (flat_map rowEdge init) = length init) as ->; [|lia].
  induction Hinit as [|r init (q & Hq & Hr) _ IH]; simpl; [done|].
  rewrite length_app, IH, rowEdge_length, Hr.
  destruct q; [done | by simpl].
Qed.

(** The call of the component in terms of the plan. *)
Lemma top_level_plan d :
  generateWith nodeHeight levelWidth d C None [] [] 0 0 0
  = {| Result.nodes := map (nodeOfRow levelWidth C) (rows (plan [] 0 d));
       Result.edges := flat_map rowEdge (rows (plan [] 0 d));
       Result.height := planHeight (plan [] 0 d) |}.
Proof.
  apply (generate_plan nodeHeight levelWidth C d [] 0 [] []).
  by intros n q ?%elem_of_nil.
Qed.

End PlanPaths.

(** ** Numbers *)

Lemma Qc_two_neq_0 : 1 + 1 <> (0 : Qc).
Proof. intros H. apply (f_equal this) in H. discriminate. Qed.

Lemma Qc_half_twice (a : Qc) : (a + a) / Q2Qc 2 = a.
Proof.
  assert (E2 : Q2Qc 2 = 1 + 1) by (apply Qc_is_canon; reflexivity).
  rewrite E2. field. apply Qc_two_neq_0.
Qed.

Lemma Qc_half_ge (yo a b : Qc) : yo <= a -> yo <= b -> yo <= (a + b) / Q2Qc 2.
Proof.
  intros Ha Hb. rewrite <- (Qc_half_twice yo) at 1. unfold Qcdiv.
  apply Qcmult_le_compat_r; [by apply Qcplus_le_compat | done].
Qed.

Lemma fold_left_Qcplus_ge (hs : list Qc) (a : Qc) :
  Forall (fun h => 0 <= h) hs -> a <= fold_left Qcplus hs a.
Proof.
  intros H. revert a. induction H as [|h hs Hh _ IH]; intros a; simpl; [done|].
  etrans; [|apply IH]. rewrite <- (Qcplus_0_r a) at 1.
  by apply Qcplus_le_mono_l.
Qed.

Lemma orElse_ge (a yo : Qc) : yo <= a -> yo <= orElse (Some a) yo.
Proof. intros H. simpl. by destruct (decide (a = 0)). Qed.


(** The cursor a child starts from: the cursor of the call plus the heights
    of the children before it. *)
Lemma plansFrom_cursor f l i cy j pl :
  plansFrom f l i cy !! j = Some pl ->
  exists k, l !! j = Some k
    /\ pl = f k (i + j)%nat
              (fold_left Qcplus (map planHeight (take j (plansFrom f l i cy))) cy).
Proof.
  revert i cy j. induction l as [|k l IH]; intros i cy [|j]; simpl; try done.
  - intros [= <-]. exists k. by rewrite Nat.add_0_r.
  - intros (k' & ? & E)%IH. exists k'. split; [done|].
    rewrite E at 1. f_equal. lia.
Qed.

Lemma subtreeAt_app d q p :
  subtreeAt d (q ++ p)
  = match subtreeAt d p with Some t => subtreeAt t q | None => None end.
Proof.
  induction q as [|i q IH]; simpl.
  - by destruct (subtreeAt d p).
  - rewrite IH. by destruct (subtreeAt d p).
Qed.

Section PlanGeometry.

Variables nodeHeight levelWidth : Qc.
Variable C : gset string.
Hypothesis nodeHeight_nonneg : 0 <= nodeHeight.

Abbreviation plan := (plan nodeHeight C).
Abbreviation kidPlans p := (plansFrom (fun k i cy => plan (i :: p) cy k)).

Lemma own_row_in p yo d :
  {| r_path := p; r_data := d; r_y := ownY (plan p yo d) |} ∈ rows (plan p yo d).
Proof.
  destruct (plan_shape nodeHeight C d p yo) as (init & -> & _).
  apply elem_of_app. right. by left.
Qed.

Lemma own_row_unique p yo d r :
  r ∈ rows (plan p yo d) -> r_path r = p ->
  r = {| r_path := p; r_data := d; r_y := ownY (plan p yo d) |}.
Proof.
  destruct (plan_shape nodeHeight C d p yo) as (init & -> & Hinit).
  intros [Hr|Hr]%elem_of_app E.
  - rewrite Forall_forall in Hinit. destruct (Hinit _ Hr) as (q & Hq & Eq).
    rewrite E in Eq. symmetry in Eq. by apply path_self_inv in Eq.
  - by apply list_elem_of_singleton in Hr.
Qed.


(** A row of an expanded call is its own row or a row of one child. *)
Lemma expanded_row_inv p t k ks yo r :
  pathId p ∉ C ->
  r ∈ rows (plan p yo (MkMindMapData t (Some (k :: ks)))) ->
  r = {| r_path := p; r_data := MkMindMapData t (Some (k :: ks));
         r_y := ownY (plan p yo (MkMindMapData t (Some (k :: ks)))) |}
  \/ exists j pl, kidPlans p (k :: ks) 0%nat yo !! j = Some pl /\ r ∈ rows pl.
Proof.
  intros Hc. rewrite plan_expanded by done. cbv zeta. cbn [rows ownY].
  intros [Hr| ->%list_elem_of_singleton]%elem_of_app; [right | by left].
  apply elem_of_concat in Hr as (rs & Hr & (pl & -> & Hpl)%list_elem_of_fmap).
  apply list_elem_of_lookup in Hpl as (j & Hj). eauto.
Qed.

Lemma plan_height_nonneg d : forall p yo, 0 <= planHeight (plan p yo d).
Proof.
  induction d as [t|t kids IH] using MindMapData_ind'; intros p yo; [done|].
  destruct (plan_cases nodeHeight C p yo (MkMindMapData t (Some kids)))
    as [[-> _]|(t' & k & ks & [= <- ->] & Hc)]; [done|].
  rewrite plan_expanded by done. cbv zeta. cbn [planHeight].
  apply fold_left_Qcplus_ge, Forall_forall.
  intros h (pl & -> & (j & k' & cy & Hk & ->)%plansFrom_elem)%list_elem_of_fmap.
  rewrite Forall_lookup in IH. by apply (IH _ _ Hk).
Qed.

(** The child of ordinal [j] of a call at [p] is laid out from a cursor
    that is not above the cursor of the call. *)
Lemma kid_plan_inv p kids yo j pl :
  kidPlans p kids 0%nat yo !! j = Some pl ->
  exists k cy, kids !! j = Some k /\ yo <= cy /\ pl = plan (j :: p) cy k.
Proof.
  intros (k & Hk & E)%plansFrom_cursor. simpl in E. eexists k, _.
  split; [done|]. split; [|exact E].
  apply fold_left_Qcplus_ge, Forall_forall.
  intros h (pl' & -> & (pl'' & Hj)%list_elem_of_lookup)%list_elem_of_fmap.
  apply lookup_take_Some in Hj as [Hj _].
  apply plansFrom_lookup in Hj as (k' & cy' & _ & ->).
  apply plan_height_nonneg.
Qed.

(** Every row of a call lies at or below the cursor the call started
    from. *)
Lemma rows_y_ge d : forall p yo r, r ∈ rows (plan p yo d) -> yo <= r_y r.
Proof.
  induction d as [t|t kids IH] using MindMapData_ind'; intros p yo r.
  - by intros ->%list_elem_of_singleton.
  - destruct (plan_cases nodeHeight C p yo (MkMindMapData t (Some kids)))
      as [[-> _]|(t' & k & ks & [= <- ->] & Hc)].
    { by intros ->%list_elem_of_singleton. }
    assert (Hkid : forall j pl r', kidPlans p (k :: ks) 0%nat yo !! j = Some pl ->
                     r' ∈ rows pl -> yo <= r_y r').
    { intros j pl r' (k' & cy & Hk & Hcy & ->)%kid_plan_inv Hr'.
      rewrite Forall_lookup in IH. etrans; [exact Hcy|]. by apply (IH _ _ Hk _ _ _ Hr'). }
    intros [->|(j & pl & Hj & Hr)]%expanded_row_inv; [|by eapply Hkid|done].
    rewrite plan_expanded by done. cbv zeta. cbn [r_y ownY].
    destruct (kidPlans_nonempty nodeHeight C p k ks yo) as (pl0 & pll & -> & -> & H0 & Hl).
    assert (Hown : forall j pl, kidPlans p (k :: ks) 0%nat yo !! j = Some pl -> yo <= ownY pl).
    { intros j pl Hj.
      pose proof (plansFrom_lookup _ _ _ _ _ _ Hj) as (k' & cy & _ & E). simpl in E.
      apply (Hkid j pl {| r_path := j :: p; r_data := k'; r_y := ownY pl |} Hj).
      rewrite E. apply own_row_in. }
    apply Qc_half_ge; apply orElse_ge; eauto.
Qed.



End PlanGeometry.

Section PlanRows.

Variables nodeHeight levelWidth : Qc.
Variable C : gset string.
Hypothesis nodeHeight_nonneg : 0 <= nodeHeight.

Abbreviation plan := (plan nodeHeight C).
Abbreviation kidPlans p := (plansFrom (fun k i cy => plan (i :: p) cy k)).

(** Every row stands for the node of the tree at its position. *)
Lemma rows_subtree d :
  forall p yo r, r ∈ rows (plan p yo d) ->
    exists q, r_path r = q ++ p /\ subtreeAt d q = Some (r_data r).
Proof.
  induction d as [t|t kids IH] using MindMapData_ind'; intros p yo r.
  - intros ->%list_elem_of_singleton. by exists [].
  - destruct (plan_cases nodeHeight C p yo (MkMindMapData t (Some kids)))
      as [[-> _]|(t' & k & ks & [= <- ->] & Hc)].
    { intros ->%list_elem_of_singleton. by exists []. }
    intros [->|(j & pl & Hj & Hr)]%expanded_row_inv; [by exists []| |done].
    apply plansFrom_lookup in Hj as (k' & cy & Hk & ->). simpl in Hr.
    rewrite Forall_lookup in IH. destruct (IH _ _ Hk _ _ _ Hr) as (q & Eq & Hq).
    exists (q ++ [j]). split; [by rewrite <- app_assoc|].
    rewrite subtreeAt_app. cbn [subtreeAt]. unfold childAt. cbn [children].
    by rewrite Hk.
Qed.


End PlanRows.

(** The nodes of the component's call are the rows of the plan of the
    root. *)
Lemma layout_nodes d C n :
  n ∈ Result.nodes (layout d C) <->
  exists r, r ∈ rows (plan nodeHeight C [] 0 d) /\ n = nodeOfRow levelWidth C r.
Proof.
  unfold layout, generateMindMapNodesAndEdges. rewrite top_level_plan.
  cbn [Result.nodes]. rewrite list_elem_of_fmap.
  split; intros (r & H1 & H2); eauto.
Qed.

Lemma nodeHeight_nonneg : 0 <= nodeHeight.
Proof. done. Qed.

(** ** Visible positions *)

Lemma positions_subtree d :
  forall p x, x ∈ positions p d -> exists q, x = q ++ p /\ is_Some (subtreeAt d q).
Proof.
  induction d as [t|t kids IH] using MindMapData_ind'; intros p x; simpl.
  - intros ->%list_elem_of_singleton. by exists [].
  - intros [Hx| ->%list_elem_of_singleton]%elem_of_app; [|by exists []].
    apply elem_of_concat in Hx as (l & Hx & (j & Hj)%list_elem_of_lookup).
    apply kidsFrom_lookup in Hj as (k & Hk & ->).
    rewrite Forall_lookup in IH.
    destruct (IH _ _ Hk _ _ Hx) as (q & -> & Hq).
    exists (q ++ [j]). split; [by rewrite <- app_assoc|].
    rewrite subtreeAt_app. cbn [subtreeAt]. unfold childAt. cbn [children].
    by rewrite Hk.
Qed.

Lemma kidsFrom_lookup_Some {A B : Type} (f : A -> nat -> B) l i j a :
  l !! j = Some a -> kidsFrom f l i !! j = Some (f a (i + j)%nat).
Proof.
  revert i j. induction l as [|a' l IH]; intros i [|j]; simpl; try done.
  - intros [= ->]. by rewrite Nat.add_0_r.
  - intros H. rewrite (IH (S i) j H). do 2 f_equal. lia.
Qed.

(** Every node of the tree has its position listed. *)
Lemma positions_complete d :
  forall p q, is_Some (subtreeAt d q) -> q ++ p ∈ positions p d.
Proof.
  induction d as [t|t kids IH] using MindMapData_ind'; intros p q Hq.
  - destruct q as [|j q _] using rev_ind; [by left|].
    rewrite subtreeAt_app in Hq. by destruct Hq.
  - destruct q as [|j q _] using rev_ind.
    + simpl. apply elem_of_app. right. by left.
    + rewrite subtreeAt_app in Hq. cbn [subtreeAt] in Hq.
      unfold childAt in Hq. cbn [children] in Hq.
      destruct (kids !! j) as [k|] eqn:Hk; [|by destruct Hq].
      rewrite Forall_lookup in IH. pose proof (IH _ _ Hk (j :: p) q Hq) as Hin.
      rewrite <- app_assoc. simpl. apply elem_of_app. left.
      apply elem_of_concat. eexists. split; [exact Hin|].
      eapply list_elem_of_lookup_2.
      apply (kidsFrom_lookup_Some (fun k i => positions (i :: p) k) kids 0%nat j k Hk).
Qed.

Lemma positions_spec d p : p ∈ positions [] d <-> is_Some (subtreeAt d p).
Proof.
  split.
  - intros (q & -> & Hq)%positions_subtree. by rewrite app_nil_r.
  - intros Hp. rewrite <- (app_nil_r p). by apply positions_complete.
Qed.

Lemma subtreeAt_below d b :
  b <> [] -> is_Some (subtreeAt d b) -> hasChildrenOf d = true.
Proof.
  induction b as [|i b IH]; [done|]. intros _ [x Hx]. cbn [subtreeAt] in Hx.
  destruct (subtreeAt d b) as [t|] eqn:Hb; [|done].
  destruct b as [|i' b]; [|by apply IH].
  injection Hb as <-. unfold childAt in Hx. unfold hasChildrenOf.
  destruct (children d) as [[|k ks]|]; by try done.
Qed.

(** A proper ancestor of a position of the tree is a node with children. *)
Lemma ancestor_hasChildren d p a :
  p ∈ positions [] d -> properAncestor a p -> hasChildrenAt d a.
Proof.
  intros (q & -> & Hq)%positions_subtree (b & Hb & E).
  rewrite app_nil_r in E. subst q. rewrite subtreeAt_app in Hq.
  destruct (subtreeAt d a) as [t|] eqn:Ha; [|by destruct Hq].
  exists t. split; [done|]. by apply (subtreeAt_below t b).
Qed.

Lemma visibleb_visible d C p :
  p ∈ positions [] d -> (visibleb C p = true <-> visible d C p).
Proof.
  intros Hp. rewrite visibleb_spec. unfold visible. split.
  - intros H a Ha [_ Hin]. by apply (H a).
  - intros H a Ha Hin. apply (H a Ha). split; [|done].
    by apply (ancestor_hasChildren d p).
Qed.

(** ** Node and edge counts *)

(** C1. For every tree and every collapse set, with [k] the number of
    visible nodes (nodes of which no proper ancestor both has children and
    is in the collapse set; the root is always visible), the layout returns
    exactly [k] nodes and [k - 1] edges; a root without children yields one
    node and no edge.  The positions counted are the nodes of the tree, each
    once. *)
Theorem layout_counts (d : MindMapData) (C : gset string) :
  (forall p, p ∈ positions [] d <-> is_Some (subtreeAt d p))
  /\ NoDup (positions [] d)
  /\ (forall p, p ∈ positions [] d -> (visibleb C p = true <-> visible d C p))
  /\ [] ∈ positions [] d /\ visible d C []
  /\ length (Result.nodes (layout d C)) = visibleCount C d
  /\ length (Result.edges (layout d C)) = (visibleCount C d - 1)%nat
  /\ (forall t,
        length (Result.nodes (layout (MkMindMapData t None) C)) = 1%nat
        /\ length (Result.edges (layout (MkMindMapData t None) C)) = 0%nat
        /\ length (Result.nodes (layout (MkMindMapData t (Some [])) C)) = 1%nat
        /\ length (Result.edges (layout (MkMindMapData t (Some [])) C)) = 0%nat).
Proof.
  split; [intros p; apply positions_spec|]. split; [apply positions_NoDup|].
  split; [intros p; apply visibleb_visible|].
  assert (Hroot : [] ∈ positions [] d).
  { destruct (positions_shape d []) as (init & -> & _).
    apply elem_of_app. right. by left. }
  split; [done|]. split; [by apply visibleb_visible|].
  unfold layout, generateMindMapNodesAndEdges, visibleCount.
  rewrite top_level_plan. cbn [Result.nodes Result.edges].
  pose proof (rows_paths nodeHeight C d [] 0 eq_refl) as Hpaths.
  pose proof (root_edges_length nodeHeight C 0 d) as Hedges.
  apply (f_equal length) in Hpaths. rewrite length_map in Hpaths.
  rewrite length_map, <- Hpaths. split; [done|]. split; [lia|].
  intros t. by rewrite !top_level_plan.
Qed.

(** ** Node ids *)

Lemma kidsFrom_map {A A' B : Type} (h : A -> A') (f : A' -> nat -> B) l i :
  kidsFrom f (map h l) i = kidsFrom (fun a i => f (h a) i) l i.
Proof. revert i. induction l as [|a l IH]; intros i; simpl; [done|]. by rewrite IH. Qed.

Lemma kidsFrom_ext {A B : Type} (f g : A -> nat -> B) l i :
  Forall (fun a => forall i, f a i = g a i) l -> kidsFrom f l i = kidsFrom g l i.
Proof.
  intros H. revert i. induction H as [|a l Ha _ IH]; intros i; simpl; [done|].
  by rewrite Ha, IH.
Qed.

(** The positions of a tree do not depend on its labels. *)
Lemma positions_relabel f d : forall p, positions p (relabel f d) = positions p d.
Proof.
  induction d as [t|t kids IH] using MindMapData_ind'; intros p; [done|].
  simpl. rewrite kidsFrom_map. f_equal. f_equal.
  apply kidsFrom_ext. eapply Forall_impl; [exact IH|]. by intros k Hk i.
Qed.

(** C6. The id of a node is a function of its position alone: the root is
    ["n0"] and the child of ordinal [i] of the node with id [P] is [P-i];
    two positions never share an id.  The ids of a layout are the ids of
    the visible positions of the tree, each node carrying the label of the
    tree node at its position; they do not change when the labels do, no
    id occurs twice, and a position visible under two collapse sets has the
    same id in both layouts. *)
Theorem ids_positional (d : MindMapData) (C : gset string) :
  pathId [] = "n0"
  /\ (forall p i, pathId (i :: p) = pathId p +:+ "-" +:+ showNat i)
  /\ (forall p q, pathId p = pathId q <-> p = q)
  /\ map Node.id (Result.nodes (layout d C))
     = map pathId (List.filter (visibleb C) (positions [] d))
  /\ NoDup (map Node.id (Result.nodes (layout d C)))
  /\ (forall n, n ∈ Result.nodes (layout d C) ->
        exists p sub,
          Node.id n = pathId p /\ subtreeAt d p = Some sub
          /\ Node.label (Node.data n) = text sub)
  /\ (forall f,
        map Node.id (Result.nodes (layout (relabel f d) C))
        = map Node.id (Result.nodes (layout d C)))
  /\ (forall C' p,
        p ∈ positions [] d -> visibleb C p = true -> visibleb C' p = true ->
        pathId p ∈ map Node.id (Result.nodes (layout d C))
        /\ pathId p ∈ map Node.id (Result.nodes (layout d C'))).
Proof.
  assert (E : forall d' C',
            map Node.id (Result.nodes (layout d' C'))
            = map pathId (List.filter (visibleb C') (positions [] d'))).
  { intros d' C'. unfold layout, generateMindMapNodesAndEdges.
    rewrite top_level_plan. cbn [Result.nodes].
    rewrite <- (rows_paths nodeHeight C' d' [] 0 eq_refl), !map_map. done. }
  split; [done|]. split; [done|].
  split; [intros p q; split; [apply pathId_inj | by intros ->]|].
  split; [apply E|]. split; [|split; [|split]].
  - rewrite E.
    apply (NoDup_fmap_2 (A:=list nat)); [intros p q; apply pathId_inj|].
    apply NoDup_ListNoDup, List.NoDup_filter, NoDup_ListNoDup, positions_NoDup.
  - intros n (r & Hr & ->)%layout_nodes.
    destruct (rows_subtree nodeHeight C d [] 0 r Hr) as (q & Eq & Hsub).
    rewrite app_nil_r in Eq. subst q. by exists (r_path r), (r_data r).
  - intros f. by rewrite !E, positions_relabel.
  - intros C' p Hp Hv Hv'. rewrite !E.
    split; apply (list_elem_of_fmap_2 pathId); apply list_elem_of_In, filter_In;
      by rewrite <- list_elem_of_In.
Qed.

Lemma ids_positional_witness :
  map Node.id (Result.nodes (layout treeA ∅))
  = ["n0-0"; "n0-1-0"; "n0-1-1"; "n0-1"; "n0"]
  /\ "n0-0" ∈ map Node.id (Result.nodes (layout treeA {["n0-1"]})).
Proof.
  pose proof (ids_positional treeA ∅) as (_ & _ & _ & E & _ & _ & _ & Hboth).
  split; [exact E|].
  apply (Hboth {["n0-1"]} [0%nat]); [|done|done].
  apply list_elem_of_In. simpl. tauto.
Defined.

(** ** Centring *)



(** ** Rows and the cursor *)



(** ** Leaf rows *)

Lemma ofNat_0 : ofNat 0 = 0.
Proof. apply Z2Qc_inj_0. Qed.

Lemma ofNat_add n m : ofNat (n + m) = ofNat n + ofNat m.
Proof. unfold ofNat. by rewrite Nat2Z.inj_add, Z2Qc_inj_add. Qed.

Lemma ofNat_nonneg n : 0 <= ofNat n.
Proof.
  unfold ofNat. rewrite <- Z2Qc_inj_0.
  apply (proj1 (Z2Qc_inj_le 0 (Z.of_nat n))), Nat2Z.is_nonneg.
Qed.

Lemma plansFrom_next f l i cy j pl pl' :
  plansFrom f l i cy !! j = Some pl -> plansFrom f l i cy !! S j = Some pl' ->
  exists k k' cyj,
    pl = f k (i + j)%nat cyj /\ pl' = f k' (i + S j)%nat (cyj + planHeight pl).
Proof.
  intros Hj HSj.
  pose proof (plansFrom_cursor _ _ _ _ _ _ Hj) as (k & _ & E).
  pose proof (plansFrom_cursor _ _ _ _ _ _ HSj) as (k' & _ & E').
  exists k, k', (fold_left Qcplus (map planHeight (take j (plansFrom f l i cy))) cy).
  split; [done|]. rewrite E' at 1. f_equal.
  by rewrite (take_S_r _ _ _ Hj), map_app, fold_left_app.
Qed.

Section LeafRows.

Variables nodeHeight levelWidth : Qc.
Variable C : gset string.

Abbreviation plan := (plan nodeHeight C).
Abbreviation kidPlans p := (plansFrom (fun k i cy => plan (i :: p) cy k)).
Abbreviation leafRows l := (List.filter (isLeafRow C) l).
Abbreviation Slots := (Slots nodeHeight).

Lemma leafShaped_row r : leafShaped (nodeOfRow levelWidth C r) = isLeafRow C r.
Proof. done. Qed.

(** The call of a leaf row is a base case: it starts at the cursor and
    takes one slot. *)
Lemma leaf_row_plan p yo d :
  isLeafRow C {| r_path := p; r_data := d; r_y := ownY (plan p yo d) |} = true ->
  ownY (plan p yo d) = yo /\ planHeight (plan p yo d) = nodeHeight.
Proof.
  destruct (plan_cases nodeHeight C p yo d) as [[-> _]|(t & k & ks & -> & Hc)];
    [done|].
  unfold isLeafRow. cbn. by rewrite bool_decide_eq_false_2.
Qed.

Lemma expanded_leafRows p t k ks yo :
  pathId p ∉ C ->
  leafRows (rows (plan p yo (MkMindMapData t (Some (k :: ks)))))
  = leafRows (concat (map rows (kidPlans p (k :: ks) 0%nat yo))).
Proof.
  intros Hc. rewrite plan_expanded by done. cbv zeta. cbn [rows].
  rewrite List.filter_app. simpl. unfold isLeafRow at 2. cbn.
  rewrite bool_decide_eq_false_2 by done. apply app_nil_r.
Qed.

Lemma Slots_app yo rs1 rs2 :
  Slots yo rs1 -> Slots (yo + ofNat (length rs1) * nodeHeight) rs2 ->
  Slots yo (rs1 ++ rs2).
Proof.
  unfold Slots. intros H1 H2.
  rewrite map_app, length_app, seq_app, map_app, H1, H2. f_equal.
  replace (seq (0 + length rs1) (length rs2))
    with (map (fun j => length rs1 + j)%nat (seq 0 (length rs2)))
    by (rewrite <- (Nat.add_comm (length rs1) 0); apply fmap_add_seq).
  rewrite map_map.
  apply map_ext. intros j. rewrite ofNat_add. ring.
Qed.

Lemma kid_leaf_slots p kids :
  Forall (fun k => forall p yo,
            Slots yo (leafRows (rows (plan p yo k)))
            /\ planHeight (plan p yo k)
               = ofNat (length (leafRows (rows (plan p yo k)))) * nodeHeight) kids ->
  forall i cy a,
    let rs := leafRows (concat (map rows (kidPlans p kids i cy))) in
    Slots cy rs
    /\ fold_left Qcplus (map planHeight (kidPlans p kids i cy)) a
       = a + ofNat (length rs) * nodeHeight.
Proof.
  induction 1 as [|k kids Hk _ IH]; intros i cy a; cbv zeta.
  - simpl. split; [done|]. rewrite ofNat_0. ring.
  - simpl. rewrite List.filter_app.
    destruct (Hk (i :: p) cy) as [Hs Hh].
    destruct (IH (S i) (cy + planHeight (plan (i :: p) cy k))
                (a + planHeight (plan (i :: p) cy k))) as [Hs' Hh'].
    split.
    + apply Slots_app; [done|]. by rewrite <- Hh.
    + rewrite Hh', length_app, ofNat_add, Hh. ring.
Qed.

(** The leaf rows of a call sit one slot after the other from the cursor,
    in the order they are pushed, and the call takes one slot for each. *)
Lemma leaf_slots d :
  forall p yo,
    Slots yo (leafRows (rows (plan p yo d)))
    /\ planHeight (plan p yo d)
       = ofNat (length (leafRows (rows (plan p yo d)))) * nodeHeight.
Proof.
  assert (Hbase : forall p yo d',
            isLeafRow C {| r_path := p; r_data := d'; r_y := yo |} = true ->
            Slots yo (leafRows [ {| r_path := p; r_data := d'; r_y := yo |} ])
            /\ nodeHeight
               = ofNat (length (leafRows [ {| r_path := p; r_data := d'; r_y := yo |} ]))
                 * nodeHeight).
  { intros p yo d' Hleaf. simpl. rewrite Hleaf. unfold Slots. simpl.
    rewrite ofNat_0. change (ofNat 1) with (Qc_of_Z 1). rewrite Z2Qc_inj_1.
    split; [f_equal|]; ring. }
  induction d as [t|t kids IH] using MindMapData_ind'; intros p yo.
  - by apply Hbase.
  - destruct (plan_cases nodeHeight C p yo (MkMindMapData t (Some kids)))
      as [[-> Hb]|(t' & k & ks & [= <- ->] & Hc)].
    { apply Hbase. unfold isLeafRow. cbn [r_data r_path].
      destruct Hb as [->|Hb]; [done|].
      by rewrite bool_decide_eq_true_2, andb_false_r. }
    rewrite expanded_leafRows by done.
    destruct (kid_leaf_slots p (k :: ks) IH 0%nat yo 0) as [Hs Hh].
    split; [done|]. rewrite plan_expanded by done. cbv zeta. cbn [planHeight].
    rewrite Hh. ring.
Qed.

Lemma leaf_slot_lookup d p yo i r :
  leafRows (rows (plan p yo d)) !! i = Some r -> r_y r = yo + ofNat i * nodeHeight.
Proof.
  intros Hi. destruct (leaf_slots d p yo) as [Hs _]. unfold Slots in Hs.
  apply (f_equal (fun l => l !! i)) in Hs.
  change (map ?f ?l) with (f <$> l) in Hs. rewrite !list_lookup_fmap, Hi in Hs.
  rewrite lookup_seq_lt in Hs by (by eapply lookup_lt_Some).
  simpl in Hs. by injection Hs.
Qed.

End LeafRows.

Section Siblings.

Variables nodeHeight levelWidth : Qc.
Variable C : gset string.

Abbreviation plan := (plan nodeHeight C).
Abbreviation kidPlans p := (plansFrom (fun k i cy => plan (i :: p) cy k)).

(** Two leaf rows that are the children of ordinal [j] and [j + 1] of one
    node are one slot apart. *)
Lemma sibling_rows d :
  forall p yo ra rb j p',
    ra ∈ rows (plan p yo d) -> rb ∈ rows (plan p yo d) ->
    r_path ra = j :: p' -> r_path rb = S j :: p' ->
    isLeafRow C ra = true -> isLeafRow C rb = true ->
    r_y rb = r_y ra + nodeHeight.
Proof.
  induction d as [t|t kids IH] using MindMapData_ind';
    intros p yo ra rb j p' Hra Hrb Ea Eb La Lb.
  - apply list_elem_of_singleton in Hra as ->.
    apply list_elem_of_singleton in Hrb as ->.
    cbn in Ea, Eb. rewrite Ea in Eb. injection Eb as Eb. lia.
  - destruct (plan_cases nodeHeight C p yo (MkMindMapData t (Some kids)))
      as [[E _]|(t' & k & ks & [= <- ->] & Hc)].
    { rewrite E in Hra, Hrb.
      apply list_elem_of_singleton in Hra as ->.
      apply list_elem_of_singleton in Hrb as ->.
      cbn in Ea, Eb. rewrite Ea in Eb. injection Eb as Eb. lia. }
    assert (Hown : forall y,
              isLeafRow C {| r_path := p; r_data := MkMindMapData t (Some (k :: ks));
                             r_y := y |} = false).
    { intros y. unfold isLeafRow. cbn. by rewrite bool_decide_eq_false_2. }
    apply expanded_row_inv in Hra as [->|(ja & pla & Hja & Hra)];
      [by rewrite Hown in La| |done].
    apply expanded_row_inv in Hrb as [->|(jb & plb & Hjb & Hrb)];
      [by rewrite Hown in Lb| |done].
    destruct (kid_plan_rows nodeHeight C _ _ _ _ _ _ _ Hja Hra) as (qa & Eqa).
    destruct (kid_plan_rows nodeHeight C _ _ _ _ _ _ _ Hjb Hrb) as (qb & Eqb).
    simpl in Eqa, Eqb. rewrite Ea in Eqa. rewrite Eb in Eqb.
    destruct qa as [|x qa].
    + injection Eqa as -> ->.
      apply (path_cons_inv [] qb p (S ja) jb) in Eqb as [<- <-].
      destruct (plansFrom_next _ _ _ _ _ _ _ Hja Hjb) as (ka & kb & cy & -> & ->).
      simpl in *.
      apply own_row_unique in Hra; [|done]. apply own_row_unique in Hrb; [|done].
      subst ra rb. cbn [r_y].
      apply leaf_row_plan in La as [Ey Eh]. rewrite Eh in Lb |- *.
      apply leaf_row_plan in Lb as [Ey' _]. by rewrite Ey, Ey'.
    + injection Eqa as <- ->.
      apply (path_cons_inv (S j :: qa) qb p ja jb) in Eqb as [<- <-].
      rewrite Hja in Hjb. injection Hjb as <-.
      apply plansFrom_lookup in Hja as (ka & cy & Hk & ->). simpl in *.
      rewrite Forall_lookup in IH.
      by apply (IH _ _ Hk (ja :: p) cy ra rb j (qa ++ ja :: p)).
Qed.

End Siblings.

(** C7. Consecutive children of one parent that are drawn as leaf rows
    (leaves, or collapsed nodes) are exactly [nodeHeight] apart, the later
    sibling below; the leaf rows of a layout fill the slots
    [0, nodeHeight, 2 * nodeHeight, ...] in the order they are emitted, so
    the extents of height [nodeHeight] of two distinct leaf rows never
    overlap. *)
Theorem leaf_rows_spacing (d : MindMapData) (C : gset string) :
  0 < nodeHeight
  /\ (forall a b P j,
        a ∈ Result.nodes (layout d C) -> b ∈ Result.nodes (layout d C) ->
        Node.id a = P +:+ "-" +:+ showNat j ->
        Node.id b = P +:+ "-" +:+ showNat (S j) ->
        leafShaped a = true -> leafShaped b = true ->
        Node.y (Node.position b) = Node.y (Node.position a) + nodeHeight)
  /\ (forall i n,
        List.filter leafShaped (Result.nodes (layout d C)) !! i = Some n ->
        Node.y (Node.position n) = ofNat i * nodeHeight)
  /\ (forall i j a b,
        List.filter leafShaped (Result.nodes (layout d C)) !! i = Some a ->
        List.filter leafShaped (Result.nodes (layout d C)) !! j = Some b ->
        (i < j)%nat ->
        Node.y (Node.position a) + nodeHeight <= Node.y (Node.position b))
  /\ (forall a b,
        a ∈ Result.nodes (layout d C) -> b ∈ Result.nodes (layout d C) ->
        leafShaped a = true -> leafShaped b = true -> a <> b ->
        Node.y (Node.position a) + nodeHeight <= Node.y (Node.position b)
        \/ Node.y (Node.position b) + nodeHeight <= Node.y (Node.position a)).
Proof.
  assert (Hleaf : List.filter leafShaped (Result.nodes (layout d C))
                  = map (nodeOfRow levelWidth C)
                      (List.filter (isLeafRow C) (rows (plan nodeHeight C [] 0 d)))).
  { unfold layout, generateMindMapNodesAndEdges. rewrite top_level_plan.
    cbn [Result.nodes]. induction (rows _) as [|r rs IH]; [done|]. simpl.
    rewrite leafShaped_row, IH. by destruct (isLeafRow C r). }
  assert (Hslot : forall i n,
            List.filter leafShaped (Result.nodes (layout d C)) !! i = Some n ->
            Node.y (Node.position n) = ofNat i * nodeHeight).
  { intros i n. rewrite Hleaf. change (map ?f ?l) with (f <$> l).
    rewrite list_lookup_fmap.
    destruct (_ !! i) as [r|] eqn:Hi; [|done]. intros [= <-]. cbn.
    rewrite (leaf_slot_lookup nodeHeight C d [] 0 i r Hi). ring. }
  assert (Hord : forall i j a b,
            List.filter leafShaped (Result.nodes (layout d C)) !! i = Some a ->
            List.filter leafShaped (Result.nodes (layout d C)) !! j = Some b ->
            (i < j)%nat ->
            Node.y (Node.position a) + nodeHeight <= Node.y (Node.position b)).
  { intros i j a b Ha Hb Hij.
    rewrite (Hslot i a Ha), (Hslot j b Hb).
    replace j with (i + 1 + (j - i - 1))%nat by lia.
    rewrite !ofNat_add. change (ofNat 1) with (Qc_of_Z 1). rewrite Z2Qc_inj_1.
    rewrite !Qcmult_plus_distr_l, Qcmult_1_l.
    rewrite <- (Qcplus_0_r (_ + nodeHeight)) at 1.
    apply Qcplus_le_mono_l.
    apply Qcmult_nonneg_nonneg; [apply ofNat_nonneg | apply nodeHeight_nonneg]. }
  split; [done|]. split; [|split; [done|split; [done|]]].
  - intros a b P j (ra & Hra & ->)%layout_nodes (rb & Hrb & ->)%layout_nodes
      Ea Eb La Lb.
    rewrite leafShaped_row in La, Lb.
    change (pathId (r_path ra) = P +:+ "-" +:+ showNat j) in Ea.
    change (pathId (r_path rb) = P +:+ "-" +:+ showNat (S j)) in Eb.
    destruct (r_path ra) as [|ja pa] eqn:Epa;
      [symmetry in Ea; by apply child_id_not_root in Ea|].
    destruct (r_path rb) as [|jb pb] eqn:Epb;
      [symmetry in Eb; by apply child_id_not_root in Eb|].
    apply child_id_inj in Ea as [<- ->]. apply child_id_inj in Eb as [Eb ->].
    apply pathId_inj in Eb as ->.
    cbn. by apply (sibling_rows nodeHeight C d [] 0 ra rb j pa).
  - intros a b Ha Hb La Lb Hne.
    assert (Hin : forall n, n ∈ Result.nodes (layout d C) -> leafShaped n = true ->
              exists i, List.filter leafShaped (Result.nodes (layout d C)) !! i = Some n).
    { intros n Hn Ln. apply list_elem_of_lookup, list_elem_of_In, filter_In.
      by rewrite <- list_elem_of_In. }
    destruct (Hin a Ha La) as (i & Hi). destruct (Hin b Hb Lb) as (j & Hj).
    destruct (Nat.lt_total i j) as [Hij|[->|Hji]].
    + left. by apply (Hord i j).
    + rewrite Hi in Hj. by injection Hj.
    + right. by apply (Hord j i).
Qed.

Lemma leaf_rows_spacing_witness :
  exists a b,
    Result.nodes (layout treeA ∅) !! 1%nat = Some a
    /\ Result.nodes (layout treeA ∅) !! 2%nat = Some b
    /\ Node.y (Node.position b) = Node.y (Node.position a) + nodeHeight.
Proof.
  destruct (Result.nodes (layout treeA ∅) !! 1%nat) as [a|] eqn:Ea;
    [|by vm_compute in Ea].
  destruct (Result.nodes (layout treeA ∅) !! 2%nat) as [b|] eqn:Eb;
    [|by vm_compute in Eb].
  exists a, b. split; [done|]. split; [done|].
  assert (Ha : Node.id a = "n0-1" +:+ "-" +:+ showNat 0 /\ leafShaped a = true)
    by (vm_compute in Ea; by injection Ea as <-).
  assert (Hb : Node.id b = "n0-1" +:+ "-" +:+ showNat 1 /\ leafShaped b = true)
    by (vm_compute in Eb; by injection Eb as <-).
  apply (proj1 (proj2 (leaf_rows_spacing treeA ∅)) a b "n0-1" 0%nat);
    [by eapply list_elem_of_lookup_2 | by eapply list_elem_of_lookup_2
    | apply Ha | apply Hb | apply Ha | apply Hb].
Defined.

(** ** The scenarios of the specification *)

(** Equality of evaluated summaries: componentwise, and by value on the
    numbers. *)
Ltac summaries_equal :=
  vm_compute;
  repeat match goal with
         | |- @eq Qc _ _ => apply Qc_is_canon; reflexivity
         | |- _ => progress f_equal
         end.

(** C3. On [A(B, C(D, E))] with nothing collapsed the nodes are, in the
    order they are emitted, [n0-0] (B) at (300, 0), [n0-1-0] (D) at
    (600, 120), [n0-1-1] (E) at (600, 240), [n0-1] (C) at (300, 180) and
    [n0] (A) at (0, 90), with [nodeHeight = 120] and [levelWidth = 300]. *)
Theorem scenario_expanded :
  nodeHeight = Q2Qc 120 /\ levelWidth = Q2Qc 300
  /\ map nodeSummary (Result.nodes (layout treeA ∅))
     = [ ("n0-0", "B", (false, false), (Q2Qc 300, Q2Qc 0));
         ("n0-1-0", "D", (false, false), (Q2Qc 600, Q2Qc 120));
         ("n0-1-1", "E", (false, false), (Q2Qc 600, Q2Qc 240));
         ("n0-1", "C", (true, false), (Q2Qc 300, Q2Qc 180));
         ("n0", "A", (true, false), (Q2Qc 0, Q2Qc 90)) ].
Proof.
  split; [done|]. split; [done|].
  summaries_equal.
Qed.

(** C4. On the same tree with exactly [n0-1] collapsed, D and E and their
    edges are gone; C is emitted with [hasChildren] and [isCollapsed] both
    true at [y = 120], its call returning the height [nodeHeight = 120];
    and A sits at [(0 + 120) / 2 = 60]. *)
Theorem scenario_collapsed :
  map nodeSummary (Result.nodes (layout treeA {["n0-1"]}))
  = [ ("n0-0", "B", (false, false), (Q2Qc 300, Q2Qc 0));
      ("n0-1", "C", (true, true), (Q2Qc 300, Q2Qc 120));
      ("n0", "A", (true, false), (Q2Qc 0, Q2Qc 60)) ]
  /\ map edgeSummary (Result.edges (layout treeA {["n0-1"]}))
     = [ ("en0-n0-0", "n0", "n0-0"); ("en0-n0-1", "n0", "n0-1") ]
  /\ (let rB := generateMindMapNodesAndEdges (leafOf "B") {["n0-1"]}
                  (Some "n0") [] [] 1 0 0 in
      let rC := generateMindMapNodesAndEdges
                  (MkMindMapData "C" (Some [leafOf "D"; leafOf "E"])) {["n0-1"]}
                  (Some "n0") (Result.nodes rB) (Result.edges rB) 1 1
                  (0 + Result.height rB) in
      Result.height rC = nodeHeight /\ nodeHeight = Q2Qc 120
      /\ Result.height (layout treeA {["n0-1"]}) = Q2Qc 240).
Proof.
  split; [|split; [|split; [|split]]].
  - summaries_equal.
  - vm_compute. reflexivity.
  - apply Qc_is_canon. vm_compute. reflexivity.
  - done.
  - apply Qc_is_canon. vm_compute. reflexivity.
Qed.

(** ** The toggle *)

Lemma onToggle_elem id C x :
  x ∈ onToggle id C <-> (x = id /\ id ∉ C) \/ (x <> id /\ x ∈ C).
Proof.
  unfold onToggle. destruct (decide (x = id)) as [->|Hne];
    case_bool_decide as Hin;
    rewrite ?elem_of_difference, ?elem_of_union, ?elem_of_singleton; tauto.
Qed.

(** C5. A toggle flips the membership of its id and of no other id;
    toggling the same id twice gives back the set, and so the same
    layout. *)
Theorem toggle_twice (C : gset string) (id : string) :
  onToggle id (onToggle id C) = C
  /\ (id ∈ onToggle id C <-> id ∉ C)
  /\ (forall id', id' <> id -> (id' ∈ onToggle id C <-> id' ∈ C))
  /\ (forall d, layout d (onToggle id (onToggle id C)) = layout d C).
Proof.
  assert (E : onToggle id (onToggle id C) = C).
  { apply set_eq. intros x. rewrite !onToggle_elem.
    destruct (decide (x = id)) as [->|Hne]; destruct (decide (id ∈ C)); tauto. }
  split; [done|]. split; [|split].
  - rewrite onToggle_elem. tauto.
  - intros id' Hne. rewrite onToggle_elem. tauto.
  - intros d. by rewrite E.
Qed.

(** ** Toggling a leaf *)

Lemma plansFrom_ext f g l i cy :
  (forall j k cy', l !! j = Some k -> f k (i + j)%nat cy' = g k (i + j)%nat cy') ->
  plansFrom f l i cy = plansFrom g l i cy.
Proof.
  revert i cy. induction l as [|k l IH]; intros i cy H; simpl; [done|].
  pose proof (H 0%nat k cy eq_refl) as E. rewrite Nat.add_0_r in E.
  rewrite E. f_equal. apply IH. intros j k' cy' Hj.
  replace (S i + j)%nat with (i + S j)%nat by lia. by apply H.
Qed.

(** The plan depends on the collapse set only through the ids of the nodes
    that have children. *)
Lemma plan_ext nh (C1 C2 : gset string) d :
  forall p yo,
    (forall q sub, subtreeAt d q = Some sub -> hasChildrenOf sub = true ->
       (pathId (q ++ p) ∈ C1 <-> pathId (q ++ p) ∈ C2)) ->
    plan nh C1 p yo d = plan nh C2 p yo d.
Proof.
  induction d as [t|t kids IH] using MindMapData_ind'; intros p yo H; [done|].
  destruct kids as [|k ks]; [done|].
  pose proof (H [] _ eq_refl eq_refl) as Hp. simpl in Hp.
  destruct (decide (pathId p ∈ C1)) as [H1|H1].
  { rewrite !plan_collapsed; tauto. }
  rewrite !plan_expanded by tauto. cbv zeta.
  assert (E : plansFrom (fun k i cy => plan nh C1 (i :: p) cy k) (k :: ks) 0%nat yo
              = plansFrom (fun k i cy => plan nh C2 (i :: p) cy k) (k :: ks) 0%nat yo).
  { apply plansFrom_ext. intros j k' cy' Hj. simpl.
    rewrite Forall_lookup in IH. apply (IH _ _ Hj). intros q sub Hq Hsub.
    rewrite (cons_middle j q p), app_assoc. apply (H (q ++ [j]) sub); [|done].
    rewrite subtreeAt_app. cbn [subtreeAt]. unfold childAt. cbn [children].
    by rewrite Hj. }
  by rewrite E.
Qed.

(** C9, as stated, fails: adding the id of a leaf root to the collapse set
    changes the layout, whose node carries the [isCollapsed] flag. *)
Lemma leaf_toggle_changes_layout :
  subtreeAt (leafOf "Root") [] = Some (leafOf "Root")
  /\ hasChildrenOf (leafOf "Root") = false
  /\ pathId [] = "n0"
  /\ layout (leafOf "Root") (∅ ∪ {["n0"]}) <> layout (leafOf "Root") ∅.
Proof.
  split; [done|]. split; [done|]. split; [done|]. intros H.
  apply (f_equal (fun r => map (fun n => Node.isCollapsed (Node.data n))
                             (Result.nodes r))) in H.
  vm_compute in H. discriminate.
Qed.

(** C9, amended.  For the id of a leaf of the tree, the layout from the
    collapse set with the id added has the same edges and the same height
    as the layout from the set itself, and the same nodes up to the
    [isCollapsed] flag of the leaf's own node, which is set: ids,
    positions, labels and every other node are unchanged.  The toggle
    itself always changes the collapse set. *)
Theorem leaf_toggle (d : MindMapData) (C : gset string) (p : list nat)
    (lf : MindMapData) :
  subtreeAt d p = Some lf -> hasChildrenOf lf = false ->
  Result.nodes (layout d (C ∪ {[pathId p]}))
  = map (markCollapsed (pathId p)) (Result.nodes (layout d C))
  /\ Result.edges (layout d (C ∪ {[pathId p]})) = Result.edges (layout d C)
  /\ Result.height (layout d (C ∪ {[pathId p]})) = Result.height (layout d C)
  /\ onToggle (pathId p) C <> C.
Proof.
  intros Hsub Hleaf.
  assert (E : plan nodeHeight (C ∪ {[pathId p]}) [] 0 d = plan nodeHeight C [] 0 d).
  { apply plan_ext. intros q sub Hq Hkids. rewrite app_nil_r.
    rewrite elem_of_union, elem_of_singleton. split; [|tauto].
    intros [H|H]; [done|]. apply pathId_inj in H as ->. congruence. }
  unfold layout, generateMindMapNodesAndEdges. rewrite !top_level_plan.
  cbn [Result.nodes Result.edges Result.height]. rewrite E.
  split; [|split; [done|split; [done|]]].
  - rewrite map_map. apply map_ext. intros r.
    unfold markCollapsed, nodeOfRow, mkNode. cbn.
    destruct (String.eqb_spec (pathId (r_path r)) (pathId p)) as [Er|Er].
    + rewrite bool_decide_eq_true_2; [done|].
      rewrite elem_of_union, elem_of_singleton. by right.
    + do 3 f_equal. apply bool_decide_ext.
      rewrite elem_of_union, elem_of_singleton. tauto.
  - intros H. pose proof (onToggle_elem (pathId p) C (pathId p)) as Ht.
    rewrite H in Ht. tauto.
Qed.

Lemma leaf_toggle_witness :
  Result.nodes (layout treeA (∅ ∪ {[pathId [0%nat]]}))
  = map (markCollapsed (pathId [0%nat])) (Result.nodes (layout treeA ∅))
  /\ Result.edges (layout treeA (∅ ∪ {[pathId [0%nat]]}))
     = Result.edges (layout treeA ∅).
Proof.
  destruct (leaf_toggle treeA ∅ [0%nat] (leafOf "B") eq_refl eq_refl)
    as (Hn & He & _).
  by split.
Defined.

(** * More of the component

    Properties of the layout beyond the claims above, of the rest of the
    collapse-capable component ([CustomNode], [MindMap]) and of the older
    copy of the layout function. *)

(** ** Nodes against the tree *)

Lemma row_visible d C r :
  r ∈ rows (plan nodeHeight C [] 0 d) ->
  visibleb C (r_path r) = true /\ r_path r ∈ positions [] d.
Proof.
  intros Hr. apply (list_elem_of_fmap_2 r_path) in Hr.
  change (r_path <$> ?l) with (map r_path l) in Hr.
  rewrite (rows_paths nodeHeight C d [] 0 eq_refl) in Hr.
  apply list_elem_of_In, filter_In in Hr as [Hin Hvis].
  split; [done|]. by apply list_elem_of_In.
Qed.

(** Every node of a layout stands for a visible node of the tree and
    carries what the tree has there. *)
Lemma layout_row d C n :
  n ∈ Result.nodes (layout d C) ->
  exists r,
    n = nodeOfRow levelWidth C r
    /\ r ∈ rows (plan nodeHeight C [] 0 d)
    /\ subtreeAt d (r_path r) = Some (r_data r)
    /\ visibleb C (r_path r) = true
    /\ r_path r ∈ positions [] d.
Proof.
  intros (r & Hr & ->)%layout_nodes. exists r. split; [done|]. split; [done|].
  destruct (rows_subtree nodeHeight C d [] 0 r Hr) as (q & Eq & Hsub).
  rewrite app_nil_r in Eq. subst q. split; [done|]. by apply row_visible.
Qed.

(** Every emitted node is the node of a visible position [p] of the tree:
    its id is the id of [p], its column is the depth of [p] times
    [levelWidth], its class names that depth, and its label and flags are
    those of the tree node and of the collapse set. *)
Theorem node_fields (d : MindMapData) (C : gset string) (n : Node.t) :
  n ∈ Result.nodes (layout d C) ->
  exists p sub,
    subtreeAt d p = Some sub /\ visible d C p
    /\ Node.id n = pathId p
    /\ Node.type n = "custom"
    /\ Node.x (Node.position n) = ofNat (length p) * levelWidth
    /\ Node.className n = "custom-node level-" +:+ showNat (length p)
    /\ Node.label (Node.data n) = text sub
    /\ Node.hasChildren (Node.data n) = hasChildrenOf sub
    /\ Node.isCollapsed (Node.data n) = bool_decide (Node.id n ∈ C)
    /\ Node.sourcePosition n = "right" /\ Node.targetPosition n = "left".
Proof.
  intros (r & -> & Hr & Hsub & Hvis & Hpos)%layout_row.
  exists (r_path r), (r_data r). split; [done|].
  split; [by apply visibleb_visible|]. done.
Qed.

Lemma node_fields_witness :
  exists n p sub,
    Result.nodes (layout treeA {["n0-1"]}) !! 1%nat = Some n
    /\ subtreeAt treeA p = Some sub
    /\ Node.id n = pathId p
    /\ Node.x (Node.position n) = ofNat (length p) * levelWidth
    /\ Node.hasChildren (Node.data n) = hasChildrenOf sub.
Proof.
  destruct (Result.nodes (layout treeA {["n0-1"]}) !! 1%nat) as [n|] eqn:E;
    [|by vm_compute in E].
  destruct (node_fields treeA {["n0-1"]} n (list_elem_of_lookup_2 _ _ _ E))
    as (p & sub & Hsub & _ & Hid & _ & Hx & _ & _ & Hkids & _).
  by exists n, p, sub.
Defined.

(** ** Edges *)

Lemma string_length_app s1 s2 :
  String.length (s1 +:+ s2) = (String.length s1 + String.length s2)%nat.
Proof. induction s1 as [|a s1 IH]; simpl; [done|]. by rewrite IH. Qed.

Lemma string_app_inj_length s1 s2 t1 t2 :
  String.length s1 = String.length s2 -> s1 +:+ t1 = s2 +:+ t2 -> s1 = s2.
Proof.
  revert s2. induction s1 as [|a s1 IH]; intros [|b s2]; simpl; try done.
  intros [= Hlen] [= -> E]. by rewrite (IH _ Hlen E).
Qed.

Lemma string_app_assoc s1 s2 s3 : (s1 +:+ s2) +:+ s3 = s1 +:+ (s2 +:+ s3).
Proof.
  induction s1 as [|a s1 IH]; [done|].
  change (String a ((s1 +:+ s2) +:+ s3) = String a (s1 +:+ (s2 +:+ s3))).
  by rewrite IH.
Qed.

(** The id of the edge into the child of ordinal [i] of the node at [p]
    names that child. *)
Lemma edge_id_inj p q i j :
  "e" +:+ pathId p +:+ "-" +:+ pathId (i :: p)
  = "e" +:+ pathId q +:+ "-" +:+ pathId (j :: q) ->
  i :: p = j :: q.
Proof.
  assert (Hassoc : forall X T, X +:+ "-" +:+ X +:+ T = (X +:+ "-" +:+ X) +:+ T)
    by (intros; by rewrite !string_app_assoc).
  simpl. intros [= E]. rewrite !Hassoc in E.
  apply child_id_inj in E as [E ->].
  assert (Hlen : String.length (pathId p) = String.length (pathId q)).
  { apply (f_equal String.length) in E.
    rewrite !string_length_app in E. simpl in E. lia. }
  apply (string_app_inj_length _ _ _ _ Hlen), pathId_inj in E. by subst.
Qed.

Lemma rowEdge_cons i p r :
  r_path r = i :: p ->
  rowEdge r
  = [ {| Edge.id := "e" +:+ pathId p +:+ "-" +:+ pathId (i :: p);
         Edge.source := pathId p;
         Edge.target := pathId (i :: p);
         Edge.className := "custom-edge";
         Edge.sourcePosition := "right";
         Edge.targetPosition := "left" |} ].
Proof.
  intros E. unfold rowEdge, pushEdge. rewrite E. cbn [parentOf].
  by rewrite truthy_pathId.
Qed.

(** The edges of the component's call: one for each row but the root's,
    which comes last. *)
Lemma layout_edges d C :
  exists init,
    rows (plan nodeHeight C [] 0 d)
    = init ++ [ {| r_path := []; r_data := d;
                   r_y := ownY (plan nodeHeight C [] 0 d) |} ]
    /\ Forall (fun r => exists i p, r_path r = i :: p) init
    /\ Result.edges (layout d C) = flat_map rowEdge init
    /\ Result.nodes (layout d C)
       = map (nodeOfRow levelWidth C) init
           ++ [nodeOfRow levelWidth C
                 {| r_path := []; r_data := d;
                    r_y := ownY (plan nodeHeight C [] 0 d) |}].
Proof.
  destruct (plan_shape nodeHeight C d [] 0) as (init & E & Hinit).
  exists init. split; [done|]. split.
  { eapply Forall_impl; [exact Hinit|]. intros r (q & Hq & ->).
    rewrite app_nil_r. destruct q as [|i p]; [done|]. eauto. }
  unfold layout, generateMindMapNodesAndEdges. rewrite top_level_plan.
  cbn [Result.edges Result.nodes]. rewrite E, flat_map_app, map_app.
  split; [|done]. simpl. apply app_nil_r.
Qed.

(** Edges follow the nodes: in the order of emission there is one edge
    into every node but the root, which comes last; it runs from the node's
    parent, which is emitted too, and its id is built from the two ends.  No
    two edges share an id. *)
Theorem edges_follow_nodes (d : MindMapData) (C : gset string) :
  map Edge.target (Result.edges (layout d C)) ++ ["n0"]
  = map Node.id (Result.nodes (layout d C))
  /\ Forall (fun e =>
       exists p i,
         Edge.target e = pathId (i :: p) /\ Edge.source e = pathId p
         /\ Edge.id e = "e" +:+ Edge.source e +:+ "-" +:+ Edge.target e
         /\ Edge.className e = "custom-edge"
         /\ Edge.sourcePosition e = "right" /\ Edge.targetPosition e = "left"
         /\ Edge.source e ∈ map Node.id (Result.nodes (layout d C))
         /\ Edge.target e ∈ map Node.id (Result.nodes (layout d C)))
       (Result.edges (layout d C))
  /\ NoDup (map Edge.id (Result.edges (layout d C))).
Proof.
  destruct (layout_edges d C) as (init & Erows & Hinit & -> & En).
  assert (Hids : map Node.id (Result.nodes (layout d C))
                 = map pathId (List.filter (visibleb C) (positions [] d))).
  { rewrite En, <- (rows_paths nodeHeight C d [] 0 eq_refl), Erows.
    by rewrite !map_app, !map_map. }
  assert (Hpaths : forall r, r ∈ init ->
            visibleb C (r_path r) = true /\ r_path r ∈ positions [] d).
  { intros r Hr. apply row_visible. rewrite Erows. apply elem_of_app. by left. }
  split; [|split].
  - rewrite En, map_app. f_equal. clear Erows En Hpaths.
    induction Hinit as [|r init (i & p & Hr) _ IH]; [done|].
    simpl. rewrite (rowEdge_cons i p r Hr). simpl. by rewrite IH, Hr.
  - apply Forall_forall. intros e He.
    apply list_elem_of_In, in_flat_map in He as (r & Hr & He).
    apply list_elem_of_In in Hr. rewrite Forall_forall in Hinit.
    destruct (Hinit r Hr) as (i & p & Ep). rewrite (rowEdge_cons i p r Ep) in He.
    destruct He as [<-|[]]. exists p, i.
    cbn [Edge.target Edge.source Edge.id Edge.className Edge.sourcePosition
         Edge.targetPosition].
    do 6 (split; [done|]). rewrite Hids.
    destruct (Hpaths r Hr) as [Hvis Hpos]. rewrite Ep in Hvis, Hpos.
    split;
      [apply (list_elem_of_fmap_2 pathId _ p)
      |apply (list_elem_of_fmap_2 pathId _ (i :: p))];
      apply list_elem_of_In, filter_In.
    + simpl in Hvis. apply andb_true_iff in Hvis as [_ Hvis].
      split; [|done]. apply list_elem_of_In, positions_spec.
      apply positions_spec in Hpos as [x Hx]. cbn [subtreeAt] in Hx.
      by destruct (subtreeAt d p).
    + split; [by apply list_elem_of_In | done].
  - assert (Hnd : NoDup (map r_path init)).
    { pose proof (positions_NoDup d []) as Hnd.
      apply NoDup_ListNoDup, (List.NoDup_filter (visibleb C)), NoDup_ListNoDup in Hnd.
      rewrite <- (rows_paths nodeHeight C d [] 0 eq_refl), Erows, map_app in Hnd.
      by apply NoDup_app in Hnd as [Hnd _]. }
    clear Erows En Hids Hpaths.
    induction Hinit as [|r init (i & p & Hr) Hinit IH]; [constructor|].
    simpl. rewrite (rowEdge_cons i p r Hr). simpl.
    simpl in Hnd. apply NoDup_cons in Hnd as [Hnotin Hnd].
    apply NoDup_cons. split; [|by apply IH].
    intros Hin. apply Hnotin.
    apply list_elem_of_fmap in Hin as (e & Ee & He).
    apply list_elem_of_In, in_flat_map in He as (r' & Hr' & He).
    apply list_elem_of_In in Hr'. rewrite Forall_forall in Hinit.
    destruct (Hinit r' Hr') as (i' & p' & Ep').
    rewrite (rowEdge_cons i' p' r' Ep') in He. destruct He as [<-|[]].
    cbn in Ee. apply edge_id_inj in Ee. rewrite Hr, Ee, <- Ep'.
    by apply (list_elem_of_fmap_2 r_path).
Qed.

(** ** The extent of a layout *)

Lemma Qc_half_le (a b m : Qc) : a <= m -> b <= m -> (a + b) / Q2Qc 2 <= m.
Proof.
  intros Ha Hb. rewrite <- (Qc_half_twice m) at 1. unfold Qcdiv.
  apply Qcmult_le_compat_r; [by apply Qcplus_le_compat | done].
Qed.

Lemma Qc_half_shift (a b n : Qc) :
  (a + b) / Q2Qc 2 + n = ((a + n) + (b + n)) / Q2Qc 2.
Proof.
  assert (E2 : Q2Qc 2 = 1 + 1) by (apply Qc_is_canon; reflexivity).
  rewrite E2. field. apply Qc_two_neq_0.
Qed.

Lemma Qcmult_cancel_r (x y z : Qc) : z <> 0 -> x * z = y * z -> x = y.
Proof.
  intros Hz E.
  rewrite <- (Qcmult_1_r x), <- (Qcmult_1_r y), <- (Qcmult_inv_r z Hz).
  by rewrite !Qcmult_assoc, E.
Qed.

Lemma ofNat_inj n m : ofNat n = ofNat m -> n = m.
Proof. unfold ofNat. intros E%Z2Qc_inj. by apply Nat2Z.inj. Qed.

Lemma orElse_cases (a yo : Qc) :
  orElse (Some a) yo = a \/ orElse (Some a) yo = yo.
Proof. simpl. destruct (decide (a = 0)); auto. Qed.

Lemma fold_left_Qcplus_shift (hs : list Qc) (a : Qc) :
  fold_left Qcplus hs a = a + fold_left Qcplus hs 0.
Proof.
  revert a. induction hs as [|h hs IH]; intros a; simpl.
  - by rewrite Qcplus_0_r.
  - rewrite (IH (a + h)), (IH (0 + h)). ring.
Qed.

Lemma cursorAt_step sub yo j pl :
  sub !! j = Some pl -> cursorAt sub yo (S j) = cursorAt sub yo j + planHeight pl.
Proof.
  intros Hj. unfold cursorAt.
  by rewrite (take_S_r _ _ _ Hj), map_app, fold_left_app.
Qed.

Lemma cursorAt_mono sub yo j1 j2 :
  Forall (fun pl => 0 <= planHeight pl) sub -> (j1 <= j2)%nat ->
  cursorAt sub yo j1 <= cursorAt sub yo j2.
Proof.
  intros Hsub Hle. unfold cursorAt.
  replace j2 with (j1 + (j2 - j1))%nat by lia.
  rewrite <- take_take_drop, map_app, fold_left_app.
  apply fold_left_Qcplus_ge, Forall_forall.
  intros h (pl & -> & Hpl)%list_elem_of_fmap.
  rewrite Forall_forall in Hsub. apply Hsub.
  by eapply subseteq_drop, subseteq_take.
Qed.

Lemma cursorAt_total sub yo j :
  Forall (fun pl => 0 <= planHeight pl) sub ->
  cursorAt sub yo j <= yo + fold_left Qcplus (map planHeight sub) 0.
Proof.
  intros Hsub. rewrite <- fold_left_Qcplus_shift. unfold cursorAt.
  rewrite <- (take_drop j sub) at 2. rewrite map_app, fold_left_app.
  apply fold_left_Qcplus_ge, Forall_forall.
  intros h (pl & -> & Hpl)%list_elem_of_fmap.
  rewrite Forall_forall in Hsub. apply Hsub. by eapply subseteq_drop.
Qed.

Section Extent.

Variables nodeHeight levelWidth : Qc.
Variable C : gset string.
Hypothesis nodeHeight_nonneg : 0 <= nodeHeight.

Abbreviation plan := (plan nodeHeight C).
Abbreviation kidPlans p := (plansFrom (fun k i cy => plan (i :: p) cy k)).

Lemma kidPlans_nonneg p kids i yo :
  Forall (fun pl => 0 <= planHeight pl) (kidPlans p kids i yo).
Proof.
  apply Forall_forall. intros pl (j & k & cy & _ & ->)%plansFrom_elem.
  by apply plan_height_nonneg.
Qed.

(** The child of ordinal [j] is laid out from the cursor left by the
    children before it. *)
Lemma kid_at_cursor p kids yo j pl :
  kidPlans p kids 0%nat yo !! j = Some pl ->
  exists k, kids !! j = Some k
    /\ pl = plan (j :: p) (cursorAt (kidPlans p kids 0%nat yo) yo j) k.
Proof. intros (k & Hk & E)%plansFrom_cursor. by exists k. Qed.

(** A call takes at least one slot. *)
Lemma plan_height_ge d : forall p yo, nodeHeight <= planHeight (plan p yo d).
Proof.
  induction d as [t|t kids IH] using MindMapData_ind'; intros p yo; [done|].
  destruct (plan_cases nodeHeight C p yo (MkMindMapData t (Some kids)))
    as [[-> _]|(t' & k & ks & [= <- ->] & Hc)]; [done|].
  rewrite plan_expanded by done. cbv zeta. cbn [planHeight].
  simpl. etrans; [|apply fold_left_Qcplus_ge, Forall_forall].
  - rewrite Qcplus_0_l. apply Forall_cons_1 in IH as [Hk _]. apply Hk.
  - intros h (pl & -> & Hpl)%list_elem_of_fmap.
    pose proof (kidPlans_nonneg p ks 1%nat
                  (yo + planHeight (plan (0%nat :: p) yo k))) as Hnn.
    rewrite Forall_forall in Hnn. by apply Hnn.
Qed.

(** Every row of a call ends, one slot high, within the height the call
    returns. *)
Lemma rows_y_le d :
  forall p yo r, r ∈ rows (plan p yo d) ->
    r_y r + nodeHeight <= yo + planHeight (plan p yo d).
Proof.
  induction d as [t|t kids IH] using MindMapData_ind'; intros p yo r.
  - by intros ->%list_elem_of_singleton.
  - destruct (plan_cases nodeHeight C p yo (MkMindMapData t (Some kids)))
      as [[-> _]|(t' & k & ks & [= <- ->] & Hc)].
    { by intros ->%list_elem_of_singleton. }
    set (sub := kidPlans p (k :: ks) 0%nat yo).
    assert (Hnn : Forall (fun pl => 0 <= planHeight pl) sub)
      by apply kidPlans_nonneg.
    assert (Htotal : planHeight (plan p yo (MkMindMapData t (Some (k :: ks))))
                     = fold_left Qcplus (map planHeight sub) 0).
    { by rewrite plan_expanded. }
    assert (Hkid : forall j pl r', sub !! j = Some pl -> r' ∈ rows pl ->
              r_y r' + nodeHeight <= yo + fold_left Qcplus (map planHeight sub) 0).
    { intros j pl r' Hj Hr'.
      pose proof (kid_at_cursor _ _ _ _ _ Hj) as (k' & Hk & E).
      rewrite E in Hr'. rewrite Forall_lookup in IH.
      etrans; [apply (IH _ _ Hk _ _ _ Hr')|].
      rewrite <- E, <- (cursorAt_step _ _ _ _ Hj). by apply cursorAt_total. }
    intros [->|(j & pl & Hj & Hr)]%expanded_row_inv; [| |done].
    + subst sub. cbn [r_y]. rewrite Htotal. rewrite plan_expanded by done.
      cbv zeta. cbn [ownY].
      destruct (kidPlans_nonempty nodeHeight C p k ks yo)
        as (pl0 & pll & -> & -> & H0 & Hl).
      simpl fmap. rewrite Qc_half_shift. apply Qc_half_le.
      * destruct (orElse_cases (ownY pl0) yo) as [->| ->].
        -- pose proof (kid_at_cursor _ _ _ _ _ H0) as (k0 & _ & E0).
           apply (Hkid _ _ {| r_path := 0%nat :: p; r_data := k0;
                              r_y := ownY pl0 |} H0).
           rewrite E0 at 2. rewrite E0. apply own_row_in.
        -- rewrite <- Htotal. apply Qcplus_le_mono_l, plan_height_ge.
      * destruct (orElse_cases (ownY pll) yo) as [->| ->].
        -- pose proof (kid_at_cursor _ _ _ _ _ Hl) as (kl & _ & El).
           apply (Hkid _ _ {| r_path := (length (k :: ks) - 1)%nat :: p;
                              r_data := kl; r_y := ownY pll |} Hl).
           rewrite El at 2. rewrite El. apply own_row_in.
        -- rewrite <- Htotal. apply Qcplus_le_mono_l, plan_height_ge.
    + rewrite Htotal. by eapply Hkid.
Qed.

(** The rows of a child end above the rows of every later child. *)
Lemma kid_rows_before p kids yo j1 j2 pl1 pl2 r1 r2 :
  kidPlans p kids 0%nat yo !! j1 = Some pl1 ->
  kidPlans p kids 0%nat yo !! j2 = Some pl2 -> (j1 < j2)%nat ->
  r1 ∈ rows pl1 -> r2 ∈ rows pl2 -> r_y r1 + nodeHeight <= r_y r2.
Proof.
  intros H1 H2 Hlt Hr1 Hr2.
  pose proof (kid_at_cursor _ _ _ _ _ H1) as (k1 & _ & E1).
  pose proof (kid_at_cursor _ _ _ _ _ H2) as (k2 & _ & E2).
  pose proof (cursorAt_step _ yo _ _ H1) as Hstep.
  rewrite E1 in Hr1. rewrite E2 in Hr2. rewrite E1 in Hstep.
  etrans; [apply (rows_y_le _ _ _ _ Hr1)|].
  etrans; [|apply (rows_y_ge nodeHeight C nodeHeight_nonneg _ _ _ _ Hr2)].
  rewrite <- Hstep. apply cursorAt_mono; [apply kidPlans_nonneg | lia].
Qed.

(** Children keep their order: the row of a child lies at least one slot
    above the row of every later child of the same parent. *)
Lemma ordered_sibling_rows d :
  forall p yo ra rb i j p',
    ra ∈ rows (plan p yo d) -> rb ∈ rows (plan p yo d) ->
    r_path ra = i :: p' -> r_path rb = j :: p' -> (i < j)%nat ->
    r_y ra + nodeHeight <= r_y rb.
Proof.
  induction d as [t|t kids IH] using MindMapData_ind';
    intros p yo ra rb i j p' Hra Hrb Ea Eb Hij.
  - apply list_elem_of_singleton in Hra as ->.
    apply list_elem_of_singleton in Hrb as ->.
    cbn in Ea, Eb. rewrite Ea in Eb. injection Eb as Eb. lia.
  - destruct (plan_cases nodeHeight C p yo (MkMindMapData t (Some kids)))
      as [[E _]|(t' & k & ks & [= <- ->] & Hc)].
    { rewrite E in Hra, Hrb.
      apply list_elem_of_singleton in Hra as ->.
      apply list_elem_of_singleton in Hrb as ->.
      cbn in Ea, Eb. rewrite Ea in Eb. injection Eb as Eb. lia. }
    assert (Hlen : length (r_path ra) = length (r_path rb))
      by (by rewrite Ea, Eb).
    assert (Hkidlen : forall j pl r,
              kidPlans p (k :: ks) 0%nat yo !! j = Some pl -> r ∈ rows pl ->
              (length p < length (r_path r))%nat).
    { intros j' pl r Hj Hr.
      destruct (kid_plan_rows nodeHeight C _ _ _ _ _ _ _ Hj Hr) as (q & ->).
      rewrite length_app. simpl. lia. }
    apply expanded_row_inv in Hra as [->|(ja & pla & Hja & Hra)]; [| |done];
      (apply expanded_row_inv in Hrb as [->|(jb & plb & Hjb & Hrb)]; [| |done]).
    + cbn in Ea, Eb. rewrite Ea in Eb. injection Eb as Eb. lia.
    + pose proof (Hkidlen _ _ _ Hjb Hrb). cbn in Hlen. lia.
    + pose proof (Hkidlen _ _ _ Hja Hra). cbn in Hlen. lia.
    + destruct (kid_plan_rows nodeHeight C _ _ _ _ _ _ _ Hja Hra) as (qa & Eqa).
      destruct (kid_plan_rows nodeHeight C _ _ _ _ _ _ _ Hjb Hrb) as (qb & Eqb).
      simpl in Eqa, Eqb. rewrite Ea in Eqa. rewrite Eb in Eqb.
      destruct qa as [|x qa].
      * injection Eqa as -> ->.
        apply (path_cons_inv [] qb p j jb) in Eqb as [<- <-].
        by apply (kid_rows_before p (k :: ks) yo ja j pla plb).
      * injection Eqa as <- ->.
        apply (path_cons_inv (j :: qa) qb p ja jb) in Eqb as [<- <-].
        rewrite Hja in Hjb. injection Hjb as <-.
        pose proof (kid_at_cursor _ _ _ _ _ Hja) as (k' & Hk & E).
        rewrite E in Hra, Hrb. rewrite Forall_lookup in IH.
        by apply (IH _ _ Hk _ _ ra rb i j (qa ++ ja :: p) Hra Hrb).
Qed.

(** Two rows at the same depth are at least one slot apart. *)
Lemma level_rows_apart d :
  forall p yo ra rb,
    ra ∈ rows (plan p yo d) -> rb ∈ rows (plan p yo d) ->
    length (r_path ra) = length (r_path rb) -> r_path ra <> r_path rb ->
    r_y ra + nodeHeight <= r_y rb \/ r_y rb + nodeHeight <= r_y ra.
Proof.
  induction d as [t|t kids IH] using MindMapData_ind';
    intros p yo ra rb Hra Hrb Hlen Hne.
  - apply list_elem_of_singleton in Hra as ->.
    by apply list_elem_of_singleton in Hrb as ->.
  - destruct (plan_cases nodeHeight C p yo (MkMindMapData t (Some kids)))
      as [[E _]|(t' & k & ks & [= <- ->] & Hc)].
    { rewrite E in Hra, Hrb. apply list_elem_of_singleton in Hra as ->.
      by apply list_elem_of_singleton in Hrb as ->. }
    set (sub := kidPlans p (k :: ks) 0%nat yo).
    assert (Hkidlen : forall j pl r, sub !! j = Some pl -> r ∈ rows pl ->
              (length p < length (r_path r))%nat).
    { intros j pl r Hj Hr.
      destruct (kid_plan_rows nodeHeight C _ _ _ _ _ _ _ Hj Hr) as (q & ->).
      rewrite length_app. simpl. lia. }
    assert (Hbefore : forall j1 j2 pl1 pl2 r1 r2,
              sub !! j1 = Some pl1 -> sub !! j2 = Some pl2 -> (j1 < j2)%nat ->
              r1 ∈ rows pl1 -> r2 ∈ rows pl2 -> r_y r1 + nodeHeight <= r_y r2)
      by apply kid_rows_before.
    apply expanded_row_inv in Hra as [->|(ja & pla & Hja & Hra)]; [| |done];
      (apply expanded_row_inv in Hrb as [->|(jb & plb & Hjb & Hrb)]; [| |done]).
    + done.
    + pose proof (Hkidlen _ _ _ Hjb Hrb). cbn in Hlen. lia.
    + pose proof (Hkidlen _ _ _ Hja Hra). cbn in Hlen. lia.
    + destruct (Nat.lt_total ja jb) as [Hlt|[->|Hlt]].
      * left. by apply (Hbefore ja jb pla plb).
      * rewrite Hja in Hjb. injection Hjb as <-.
        pose proof (kid_at_cursor _ _ _ _ _ Hja) as (k' & Hk & E).
        rewrite E in Hra, Hrb. rewrite Forall_lookup in IH.
        by apply (IH _ _ Hk _ _ ra rb Hra Hrb).
      * right. by apply (Hbefore jb ja plb pla).
Qed.

End Extent.

Lemma leaf_nodes_rows d C :
  List.filter leafShaped (Result.nodes (layout d C))
  = map (nodeOfRow levelWidth C)
      (List.filter (isLeafRow C) (rows (plan nodeHeight C [] 0 d))).
Proof.
  unfold layout, generateMindMapNodesAndEdges. rewrite top_level_plan.
  cbn [Result.nodes]. induction (rows _) as [|r rs IH]; [done|]. simpl.
  rewrite leafShaped_row, IH. by destruct (isLeafRow C r).
Qed.

Lemma layout_height d C :
  Result.height (layout d C) = planHeight (plan nodeHeight C [] 0 d).
Proof.
  unfold layout, generateMindMapNodesAndEdges. by rewrite top_level_plan.
Qed.

(** The height a layout returns is one [nodeHeight] for each leaf row, at
    least one; every node lies between 0 and that height less one slot, so
    the rows of the map fill exactly the band the height announces. *)
Theorem layout_extent (d : MindMapData) (C : gset string) :
  Result.height (layout d C)
  = ofNat (length (List.filter leafShaped (Result.nodes (layout d C))))
    * nodeHeight
  /\ nodeHeight <= Result.height (layout d C)
  /\ Forall (fun n =>
       0 <= Node.y (Node.position n)
       /\ Node.y (Node.position n) + nodeHeight <= Result.height (layout d C))
       (Result.nodes (layout d C)).
Proof.
  rewrite layout_height, leaf_nodes_rows, length_map. split; [|split].
  - apply (leaf_slots nodeHeight C d [] 0).
  - apply (plan_height_ge nodeHeight C nodeHeight_nonneg).
  - apply Forall_forall. intros n (r & Hr & ->)%layout_nodes. cbn. split.
    + apply (rows_y_ge nodeHeight C nodeHeight_nonneg d [] 0 r Hr).
    + rewrite <- (Qcplus_0_l (planHeight _)).
      apply (rows_y_le nodeHeight C nodeHeight_nonneg d [] 0 r Hr).
Qed.

Lemma levelWidth_neq_0 : levelWidth <> 0.
Proof. intros H. apply (f_equal this) in H. discriminate. Qed.

(** Two different nodes in the same column (the same [x]) are at least
    [nodeHeight] apart: rows of one level never overlap, whatever the shape
    of the tree between them. *)
Theorem same_column_apart (d : MindMapData) (C : gset string) (a b : Node.t) :
  a ∈ Result.nodes (layout d C) -> b ∈ Result.nodes (layout d C) ->
  Node.x (Node.position a) = Node.x (Node.position b) ->
  Node.id a <> Node.id b ->
  Node.y (Node.position a) + nodeHeight <= Node.y (Node.position b)
  \/ Node.y (Node.position b) + nodeHeight <= Node.y (Node.position a).
Proof.
  intros (ra & Hra & ->)%layout_nodes (rb & Hrb & ->)%layout_nodes Hx Hid.
  cbn in Hx, Hid |- *.
  apply (level_rows_apart nodeHeight C nodeHeight_nonneg d [] 0 ra rb Hra Hrb).
  - by apply Qcmult_cancel_r, ofNat_inj in Hx; [|apply levelWidth_neq_0].
  - intros E. apply Hid. by rewrite E.
Qed.

Lemma same_column_apart_witness :
  exists a b,
    Result.nodes (layout treeA ∅) !! 0%nat = Some a
    /\ Result.nodes (layout treeA ∅) !! 3%nat = Some b
    /\ (Node.y (Node.position a) + nodeHeight <= Node.y (Node.position b)
        \/ Node.y (Node.position b) + nodeHeight <= Node.y (Node.position a)).
Proof.
  destruct (Result.nodes (layout treeA ∅) !! 0%nat) as [a|] eqn:Ea;
    [|by vm_compute in Ea].
  destruct (Result.nodes (layout treeA ∅) !! 3%nat) as [b|] eqn:Eb;
    [|by vm_compute in Eb].
  exists a, b. split; [done|]. split; [done|].
  assert (Ha : Node.id a = "n0-0" /\ Node.x (Node.position a) = Q2Qc 300).
  { vm_compute in Ea. injection Ea as <-. split; [done|].
    apply Qc_is_canon. reflexivity. }
  assert (Hb : Node.id b = "n0-1" /\ Node.x (Node.position b) = Q2Qc 300).
  { vm_compute in Eb. injection Eb as <-. split; [done|].
    apply Qc_is_canon. reflexivity. }
  apply (same_column_apart treeA ∅ a b);
    [by eapply list_elem_of_lookup_2 | by eapply list_elem_of_lookup_2 | |].
  - destruct Ha as [_ ->]. by destruct Hb as [_ ->].
  - destruct Ha as [-> _]. by destruct Hb as [-> _].
Defined.

(** ** Collapsing and what it hides *)

Lemma below_spec a q : below a q = true <-> properAncestor a q.
Proof.
  induction q as [|i q IH]; simpl.
  - split; [done|]. intros (b & Hb & E). symmetry in E.
    apply app_eq_nil in E as [-> _]. done.
  - rewrite orb_true_iff, bool_decide_eq_true, IH. split.
    + intros [->|(b & Hb & ->)]; [by exists [i] | exists (i :: b); by split].
    + intros (b & Hb & E). destruct b as [|j b]; [done|]. injection E as -> E.
      destruct b as [|j' b]; [by left|]. right. exists (j' :: b). by split.
Qed.

Lemma visibleb_add C a q :
  visibleb (C ∪ {[pathId a]}) q = visibleb C q && negb (below a q).
Proof.
  induction q as [|i q IH]; [done|]. simpl. rewrite IH.
  assert (E : bool_decide (pathId q ∈ C ∪ {[pathId a]})
              = bool_decide (pathId q ∈ C) || bool_decide (q = a)).
  { apply eq_true_iff_eq.
    rewrite orb_true_iff, !bool_decide_eq_true, elem_of_union, elem_of_singleton.
    split; (intros [H|H]; [by left | right]); [by apply pathId_inj | by subst]. }
  rewrite E.
  by destruct (bool_decide (pathId q ∈ C)), (bool_decide (q = a)),
    (visibleb C q), (below a q).
Qed.

Lemma layout_ids d C :
  map Node.id (Result.nodes (layout d C))
  = map pathId (List.filter (visibleb C) (positions [] d)).
Proof.
  unfold layout, generateMindMapNodesAndEdges. rewrite top_level_plan.
  cbn [Result.nodes].
  by rewrite <- (rows_paths nodeHeight C d [] 0 eq_refl), !map_map.
Qed.

Lemma filter_filter {A : Type} (f g : A -> bool) (l : list A) :
  List.filter f (List.filter g l) = List.filter (fun x => g x && f x) l.
Proof.
  induction l as [|x l IH]; [done|]. simpl.
  destruct (g x); simpl; [|done]. destruct (f x); by rewrite IH.
Qed.

(** Collapsing the node at position [a] removes from the layout exactly
    the nodes strictly below [a]: the nodes left are, in the same order,
    those of the layout before that do not have [a] as a proper ancestor. *)
Theorem collapse_hides_subtree (d : MindMapData) (C : gset string)
    (a : list nat) :
  (forall q, below a q = true <-> properAncestor a q)
  /\ exists ps,
       map Node.id (Result.nodes (layout d C)) = map pathId ps
       /\ map Node.id (Result.nodes (layout d (C ∪ {[pathId a]})))
          = map pathId (List.filter (fun q => negb (below a q)) ps).
Proof.
  split; [apply below_spec|].
  exists (List.filter (visibleb C) (positions [] d)).
  split; [apply layout_ids|]. rewrite layout_ids, filter_filter. f_equal.
  apply filter_ext. intros q. apply visibleb_add.
Qed.

(** The plan depends on the collapse set only through the ids of the
    visible positions. *)
Lemma plan_ext_visible nh (C1 C2 : gset string) d :
  forall p yo,
    visibleb C1 p = true ->
    (forall x, x ∈ positions p d -> visibleb C1 x = true ->
       (pathId x ∈ C1 <-> pathId x ∈ C2)) ->
    plan nh C1 p yo d = plan nh C2 p yo d.
Proof.
  induction d as [t|t kids IH] using MindMapData_ind'; intros p yo Hvis H; [done|].
  destruct kids as [|k ks]; [done|].
  assert (Hp : pathId p ∈ C1 <-> pathId p ∈ C2).
  { apply H; [|done]. simpl. apply elem_of_app. right. by left. }
  destruct (decide (pathId p ∈ C1)) as [H1|H1].
  { rewrite !plan_collapsed; tauto. }
  rewrite !plan_expanded by tauto. cbv zeta.
  assert (E : plansFrom (fun k i cy => plan nh C1 (i :: p) cy k) (k :: ks) 0%nat yo
              = plansFrom (fun k i cy => plan nh C2 (i :: p) cy k) (k :: ks) 0%nat yo).
  { apply plansFrom_ext. intros j k' cy' Hj. simpl.
    rewrite Forall_lookup in IH. apply (IH _ _ Hj).
    - simpl. by rewrite bool_decide_eq_false_2.
    - intros x Hx. apply H.
      change (positions p (MkMindMapData t (Some (k :: ks))))
        with (concat (kidsFrom (fun k i => positions (i :: p) k) (k :: ks) 0%nat)
                ++ [p]).
      apply elem_of_app. left. apply elem_of_concat. eexists. split; [exact Hx|].
      eapply list_elem_of_lookup_2.
      apply (kidsFrom_lookup_Some (fun k i => positions (i :: p) k) (k :: ks)
               0%nat j k' Hj). }
  by rewrite E.
Qed.

(** Two collapse sets that agree on the ids of the emitted nodes give the
    same layout. *)
Lemma layout_ext d (C1 C2 : gset string) :
  (forall s, s ∈ map Node.id (Result.nodes (layout d C1)) -> (s ∈ C1 <-> s ∈ C2)) ->
  layout d C2 = layout d C1.
Proof.
  intros H. rewrite layout_ids in H.
  assert (Hpos : forall x, x ∈ positions [] d -> visibleb C1 x = true ->
            (pathId x ∈ C1 <-> pathId x ∈ C2)).
  { intros x Hx Hv. apply H, (list_elem_of_fmap_2 pathId), list_elem_of_In, filter_In.
    split; [by apply list_elem_of_In | done]. }
  pose proof (plan_ext_visible nodeHeight C1 C2 d [] 0 eq_refl Hpos) as E.
  unfold layout, generateMindMapNodesAndEdges. rewrite !top_level_plan, <- E.
  f_equal. apply map_ext_in. intros r Hr. apply list_elem_of_In in Hr.
  destruct (row_visible d C1 r Hr) as [Hv Hx].
  unfold nodeOfRow. f_equal. apply bool_decide_ext. symmetry. by apply Hpos.
Qed.

(** Toggling an id that no emitted node carries (the id of a node hidden
    under a collapsed ancestor, or of no node at all) leaves the whole
    layout as it was: a hidden node keeps its own collapse state without
    effect until an ancestor shows it again. *)
Theorem toggle_unseen_id (d : MindMapData) (C : gset string) (id : string) :
  id ∉ map Node.id (Result.nodes (layout d C)) ->
  layout d (onToggle id C) = layout d C.
Proof.
  intros Hid. apply layout_ext. intros s Hs. rewrite onToggle_elem.
  assert (s <> id) by (by intros ->). tauto.
Qed.

Lemma toggle_unseen_id_witness :
  layout treeA (onToggle "n0-1-0" {["n0-1"]}) = layout treeA {["n0-1"]}.
Proof.
  apply (toggle_unseen_id treeA {["n0-1"]} "n0-1-0").
  rewrite layout_ids. vm_compute. intros H.
  repeat (apply elem_of_cons in H as [H|H]; [discriminate|]).
  by apply elem_of_nil in H.
Defined.

(** ** The older copy of the layout function *)

Section LegacyFacts.

Variables nodeHeight levelWidth : Qc.

Abbreviation legacyCallback := (legacyCallback nodeHeight levelWidth).
Abbreviation LegacySpec := (LegacySpec nodeHeight levelWidth).

Lemma legacy_expanded t k ks parentId nodes edges level index yo :
  let d := MkMindMapData t (Some (k :: ks)) in
  let nodeId := nodeIdOf parentId index in
  let st :=
    forEach (legacyCallback nodeId level) (k :: ks)
      {| Legacy.l_nodes := nodes; Legacy.l_edges := edges;
         Legacy.childHeights := []; Legacy.currentY := yo |} in
  let centerY :=
    (orElse (Legacy.findY (Legacy.l_nodes st) (nodeId +:+ "-" +:+ showNat 0)) yo
     + orElse (Legacy.findY (Legacy.l_nodes st)
                 (nodeId +:+ "-" +:+ showNat (length (k :: ks) - 1))) yo)
    / Q2Qc 2 in
  Legacy.generateWith nodeHeight levelWidth d parentId nodes edges level index yo
  = {| Legacy.nodes :=
         Legacy.l_nodes st ++ [Legacy.mkNode levelWidth nodeId level centerY d];
       Legacy.edges := pushEdge parentId nodeId (Legacy.l_edges st);
       Legacy.height := fold_left Qcplus (Legacy.childHeights st) 0 |}.
Proof. done. Qed.

Lemma legacy_findY acc target :
  Legacy.findY (map eraseNode acc) target = findY acc target.
Proof.
  unfold Legacy.findY, findY. induction acc as [|n acc IH]; [done|]. simpl.
  change (Legacy.id (eraseNode n)) with (Node.id n).
  by destruct (String.eqb (Node.id n) target).
Qed.

Lemma legacy_forEach nodeId level kids :
  Forall LegacySpec kids ->
  forall i st,
    length (childHeights st) = i ->
    forEachFrom (legacyCallback nodeId level) kids i (eraseLoop st)
    = eraseLoop
        (forEachFrom (childCallback nodeHeight levelWidth ∅ nodeId level) kids i st).
Proof.
  induction 1 as [|k kids Hk _ IH]; intros i st Hlen; [done|].
  simpl forEachFrom.
  assert (E : legacyCallback nodeId level k i (eraseLoop st)
              = eraseLoop (childCallback nodeHeight levelWidth ∅ nodeId level k i st)).
  { unfold legacyCallback, childCallback, eraseLoop. cbv zeta.
    cbn [Legacy.l_nodes Legacy.l_edges Legacy.childHeights Legacy.currentY
         l_nodes l_edges childHeights currentY].
    by rewrite Hlen, Hk. }
  rewrite E. apply IH. unfold childCallback. cbn [childHeights].
  rewrite length_app. simpl. lia.
Qed.

Lemma legacy_generate d : LegacySpec d.
Proof.
  induction d as [t|t kids IH] using MindMapData_ind';
    intros parentId accN accE level index yo.
  - rewrite generate_base by (by left). unfold eraseResult. simpl.
    by rewrite map_app.
  - destruct kids as [|k ks].
    { rewrite generate_base by (by left). unfold eraseResult. simpl.
      by rewrite map_app. }
    rewrite generate_expanded by (apply not_elem_of_empty).
    rewrite legacy_expanded. cbv zeta. unfold forEach.
    pose proof (legacy_forEach (nodeIdOf parentId index) level (k :: ks) IH 0%nat
                  {| l_nodes := accN; l_edges := accE;
                     childHeights := []; currentY := yo |} eq_refl) as E.
    unfold eraseLoop at 1 in E. cbn [l_nodes l_edges childHeights currentY] in E.
    rewrite E. unfold eraseResult, eraseLoop.
    cbn [Legacy.l_nodes Legacy.l_edges Legacy.childHeights Legacy.currentY
         Result.nodes Result.edges Result.height].
    by rewrite !legacy_findY, map_app.
Qed.

End LegacyFacts.

(** The older copy of the component shows the layout the collapse-capable
    one shows with nothing collapsed: the same ids, positions, labels and
    classes, node by node, the same edges and the same height. *)
Theorem legacy_agrees (data : option MindMapData) :
  Legacy.MindMap data = eraseResult (MindMap data ∅).
Proof.
  unfold Legacy.MindMap, Legacy.generateMindMapNodesAndEdges, MindMap, layout,
    generateMindMapNodesAndEdges.
  apply (legacy_generate nodeHeight levelWidth (default defaultData data) None []).
Qed.

(** ** Runs of toggles *)

Lemma toggleAll_elem ids C x :
  x ∈ toggleAll ids C
  <-> (if Nat.even (count_occ string_dec ids x) then x ∈ C else x ∉ C).
Proof.
  revert C. induction ids as [|id ids IH]; intros C; [done|].
  change (toggleAll (id :: ids) C) with (toggleAll ids (onToggle id C)).
  rewrite IH. simpl count_occ.
  destruct (string_dec id x) as [->|Hne].
  - rewrite Nat.even_succ, <- Nat.negb_even.
    destruct (Nat.even (count_occ string_dec ids x)); simpl;
      rewrite onToggle_elem; destruct (decide (x ∈ C)); tauto.
  - assert (x <> id) by congruence.
    destruct (Nat.even (count_occ string_dec ids x));
      rewrite onToggle_elem; tauto.
Qed.

(** Toggles of different ids do not interfere: two toggles commute, a run
    of toggles leaves an id in the set exactly when the id was toggled an
    odd number of times or was in the set and toggled an even number of
    times, and so the order of a run does not matter. *)
Theorem toggles_compose (C : gset string) :
  (forall a b, onToggle a (onToggle b C) = onToggle b (onToggle a C))
  /\ (forall ids x,
        x ∈ toggleAll ids C
        <-> (if Nat.even (count_occ string_dec ids x) then x ∈ C else x ∉ C))
  /\ (forall ids ids', ids ≡ₚ ids' -> toggleAll ids C = toggleAll ids' C).
Proof.
  split; [|split].
  - intros a b. apply set_eq. intros x. rewrite !onToggle_elem.
    destruct (decide (a ∈ C)); destruct (decide (b ∈ C));
      destruct (decide (x ∈ C));
      destruct (decide (x = a)) as [Ha|Ha]; destruct (decide (x = b)) as [Hb|Hb];
      destruct (decide (a = b)) as [Hab|Hab]; try subst; tauto.
  - intros ids x. apply toggleAll_elem.
  - intros ids ids' Hperm. apply set_eq. intros x. rewrite !toggleAll_elem.
    by rewrite (proj1 (Permutation_count_occ string_dec ids ids') Hperm x).
Qed.

(** ** What is drawn *)

Lemma renderNode_row lw C r :
  renderNode (nodeOfRow lw C r)
  = Some (pathId (r_path r),
          {| Node.x := ofNat (length (r_path r)) * lw; Node.y := r_y r |},
          "custom-node level-" +:+ showNat (length (r_path r)),
          CustomNode {| Node.label := text (r_data r);
                        Node.hasChildren := hasChildrenOf (r_data r);
                        Node.isCollapsed := bool_decide (pathId (r_path r) ∈ C) |}
            (pathId (r_path r))).
Proof. done. Qed.

(** Toggling the id of a leaf changes nothing that is drawn: every node is
    rendered with the same position, class and elements as before (a leaf
    has no collapse handle to show its state), and the edges and the height
    are the same. *)
Theorem leaf_toggle_not_drawn (d : MindMapData) (C : gset string)
    (p : list nat) (lf : MindMapData) :
  subtreeAt d p = Some lf -> hasChildrenOf lf = false ->
  map renderNode (Result.nodes (layout d (onToggle (pathId p) C)))
  = map renderNode (Result.nodes (layout d C))
  /\ Forall (fun n => is_Some (renderNode n)) (Result.nodes (layout d C))
  /\ Result.edges (layout d (onToggle (pathId p) C)) = Result.edges (layout d C)
  /\ Result.height (layout d (onToggle (pathId p) C)) = Result.height (layout d C).
Proof.
  intros Hsub Hleaf.
  assert (E : plan nodeHeight (onToggle (pathId p) C) [] 0 d
              = plan nodeHeight C [] 0 d).
  { apply plan_ext. intros q sub Hq Hkids. rewrite app_nil_r, onToggle_elem.
    assert (pathId q <> pathId p).
    { intros ->%pathId_inj. congruence. }
    tauto. }
  split; [|split].
  - unfold layout, generateMindMapNodesAndEdges. rewrite !top_level_plan.
    cbn [Result.nodes]. rewrite E, !map_map. apply map_ext_in.
    intros r Hr%list_elem_of_In. rewrite !renderNode_row. do 2 f_equal.
    destruct (rows_subtree nodeHeight C d [] 0 r Hr) as (q & Eq & Hq).
    rewrite app_nil_r in Eq. subst q.
    destruct (decide (r_path r = p)) as [Ep|Ep].
    + rewrite Ep, Hsub in Hq. injection Hq as <-.
      unfold CustomNode. cbn. by rewrite Hleaf.
    + do 2 f_equal. apply bool_decide_ext. rewrite onToggle_elem.
      assert (pathId (r_path r) <> pathId p) by (by intros ?%pathId_inj).
      tauto.
  - apply Forall_forall. intros n (r & Hr & ->)%layout_nodes.
    by rewrite renderNode_row.
  - unfold layout, generateMindMapNodesAndEdges. rewrite !top_level_plan.
    cbn [Result.edges Result.height]. by rewrite E.
Qed.

Lemma leaf_toggle_not_drawn_witness :
  map renderNode (Result.nodes (layout treeA (onToggle (pathId [0%nat]) ∅)))
  = map renderNode (Result.nodes (layout treeA ∅)).
Proof.
  exact (proj1 (leaf_toggle_not_drawn treeA ∅ [0%nat] (leafOf "B")
                  eq_refl eq_refl)).
Defined.

(** ** The collapse states of the component *)




(** ** Order and growth *)

(** The children of a node are drawn in their original order, top to
    bottom: a child lies at least [nodeHeight] above every later child of
    the same parent, whatever the two subtrees look like. *)
Theorem siblings_in_order (d : MindMapData) (C : gset string)
    (a b : Node.t) (P : string) (i j : nat) :
  a ∈ Result.nodes (layout d C) -> b ∈ Result.nodes (layout d C) ->
  Node.id a = P +:+ "-" +:+ showNat i ->
  Node.id b = P +:+ "-" +:+ showNat j ->
  (i < j)%nat ->
  Node.y (Node.position a) + nodeHeight <= Node.y (Node.position b).
Proof.
  intros (ra & Hra & ->)%layout_nodes (rb & Hrb & ->)%layout_nodes Ea Eb Hij.
  change (pathId (r_path ra) = P +:+ "-" +:+ showNat i) in Ea.
  change (pathId (r_path rb) = P +:+ "-" +:+ showNat j) in Eb.
  destruct (r_path ra) as [|ia pa] eqn:Epa;
    [symmetry in Ea; by apply child_id_not_root in Ea|].
  destruct (r_path rb) as [|ib pb] eqn:Epb;
    [symmetry in Eb; by apply child_id_not_root in Eb|].
  apply child_id_inj in Ea as [<- ->]. apply child_id_inj in Eb as [Eb ->].
  apply pathId_inj in Eb as ->. cbn.
  by apply (ordered_sibling_rows nodeHeight C nodeHeight_nonneg d [] 0 ra rb i j pa).
Qed.

Lemma siblings_in_order_witness :
  exists a b,
    Result.nodes (layout treeA ∅) !! 0%nat = Some a
    /\ Result.nodes (layout treeA ∅) !! 3%nat = Some b
    /\ Node.y (Node.position a) + nodeHeight <= Node.y (Node.position b).
Proof.
  destruct (Result.nodes (layout treeA ∅) !! 0%nat) as [a|] eqn:Ea;
    [|by vm_compute in Ea].
  destruct (Result.nodes (layout treeA ∅) !! 3%nat) as [b|] eqn:Eb;
    [|by vm_compute in Eb].
  exists a, b. split; [done|]. split; [done|].
  assert (Ha : Node.id a = "n0" +:+ "-" +:+ showNat 0)
    by (vm_compute in Ea; by injection Ea as <-).
  assert (Hb : Node.id b = "n0" +:+ "-" +:+ showNat 1)
    by (vm_compute in Eb; by injection Eb as <-).
  apply (siblings_in_order treeA ∅ a b "n0" 0%nat 1%nat);
    [by eapply list_elem_of_lookup_2 | by eapply list_elem_of_lookup_2
    | exact Ha | exact Hb | lia].
Defined.

Lemma fold_heights_le f g l :
  (forall k i cy cy', k ∈ l ->
     planHeight (f k i cy) <= planHeight (g k i cy')) ->
  forall i cy cy' (a a' : Qc),
    a <= a' ->
    fold_left Qcplus (map planHeight (plansFrom f l i cy)) a
    <= fold_left Qcplus (map planHeight (plansFrom g l i cy')) a'.
Proof.
  induction l as [|k l IH]; intros H i cy cy' a a' Ha; [done|].
  simpl. apply IH.
  - intros k' j c c' Hk'. apply H. by right.
  - apply Qcplus_le_compat; [done|]. apply H. by left.
Qed.

(** A larger collapse set never gives a call more height. *)
Lemma plan_height_mono nh (C C' : gset string) d :
  0 <= nh -> C ⊆ C' ->
  forall p yo yo', planHeight (plan nh C' p yo d) <= planHeight (plan nh C p yo' d).
Proof.
  intros Hnh Hsub.
  induction d as [t|t kids IH] using MindMapData_ind'; intros p yo yo'; [done|].
  destruct kids as [|k ks]; [done|].
  destruct (decide (pathId p ∈ C')) as [Hc'|Hc'].
  { rewrite (plan_collapsed nh C' p yo _ Hc'). cbn [planHeight].
    by apply plan_height_ge. }
  assert (Hc : pathId p ∉ C) by (intros Hin; by apply Hc', Hsub).
  rewrite !plan_expanded by done. cbv zeta. cbn [planHeight].
  apply fold_heights_le; [|done].
  intros k' i cy cy' (j & Hj)%list_elem_of_lookup.
  rewrite Forall_lookup in IH. by apply (IH _ _ Hj).
Qed.

Lemma visibleb_mono (C C' : gset string) q :
  C ⊆ C' -> visibleb C' q = true -> visibleb C q = true.
Proof.
  intros Hsub. induction q as [|i q IH]; [done|]. simpl.
  rewrite !andb_true_iff, !negb_true_iff, !bool_decide_eq_false.
  intros [Hq Hv]. split; [|by apply IH]. intros Hin. by apply Hq, Hsub.
Qed.

Lemma filter_length_le {A : Type} (f g : A -> bool) (l : list A) :
  (forall x, f x = true -> g x = true) ->
  (length (List.filter f l) <= length (List.filter g l))%nat.
Proof.
  intros H. induction l as [|x l IH]; [done|]. simpl.
  destruct (f x) eqn:Ef.
  - rewrite (H x Ef). simpl. lia.
  - destruct (g x); simpl; lia.
Qed.

(** Collapsing more never grows the map: with a larger collapse set the
    layout is no taller, shows no more nodes, and shows only nodes that the
    smaller set shows too. *)
Theorem collapsing_shrinks (d : MindMapData) (C C' : gset string) :
  C ⊆ C' ->
  Result.height (layout d C') <= Result.height (layout d C)
  /\ (length (Result.nodes (layout d C')) <= length (Result.nodes (layout d C)))%nat
  /\ (forall s, s ∈ map Node.id (Result.nodes (layout d C')) ->
        s ∈ map Node.id (Result.nodes (layout d C))).
Proof.
  intros Hsub. split; [|split].
  - rewrite !layout_height. by apply plan_height_mono; [apply nodeHeight_nonneg|].
  - rewrite <- !(length_map Node.id), !layout_ids, !length_map.
    apply filter_length_le. intros q. by apply visibleb_mono.
  - intros s. rewrite !layout_ids.
    intros (q & -> & Hq)%list_elem_of_fmap. apply (list_elem_of_fmap_2 pathId).
    apply list_elem_of_In, filter_In in Hq as [Hq Hv].
    apply list_elem_of_In, filter_In. split; [done|]. by apply (visibleb_mono C C').
Qed.

Lemma collapsing_shrinks_witness :
  Result.height (layout treeA {["n0-1"]}) <= Result.height (layout treeA ∅).
Proof.
  assert (Hsub : (∅ : gset string) ⊆ {["n0-1"]}) by apply empty_subseteq.
  exact (proj1 (collapsing_shrinks treeA ∅ {["n0-1"]} Hsub)).
Defined.
